(** * Employee engagement comparison (task3_compare_engagement_levels.py)

    A shallow embedding of the batch job
    [load_data → convert_engagement_to_numeric → compare_engagement_levels
     → write_output], sequenced by [main].

    Conventions of the embedding.
    - A column value that may be null is an [option]; [None] is SQL null.
    - A table with the schema declared in [load_data] is a [list Row]; the
      order of the list is the order in which the engine delivers the rows.
    - A double is the rational it stands for ([Q], kept in lowest terms).
      [avg] divides the sum of the values by their count in doubles: the
      sum and the count are whole numbers, which a double holds exactly
      (below 2^53), and the quotient is rounded to the nearest double,
      ties to the even significand ([to_double]).  The range of the
      exponent of a double is not modelled: a mean of INT values lies
      between the least and the greatest of them and does not reach it.
    - The engine evaluates a table when an action asks for it; here a table
      is a value, computed where the source names it.
    - What the engine leaves open (the order in which groups reach the
      sort, the split into partitions, the text of a CSV field, the job
      identifier in a part file name) is a parameter. *)

From Stdlib Require Import ZArith QArith Qround Qabs Qpower Lqa Lia Ascii.
From stdpp Require Import base option list sorting strings pretty gmap fin_maps.

Local Open Scope Z_scope.

(** ** Data model *)

(** The schema string of [load_data]:
    EmployeeID INT, Department STRING, JobTitle STRING,
    SatisfactionRating INT, EngagementLevel STRING,
    ReportsConcerns BOOLEAN, ProvidedSuggestions BOOLEAN. *)
Record Row := mkRow {
  EmployeeID : option Z;
  Department : option string;
  JobTitle : option string;
  SatisfactionRating : option Z;
  EngagementLevel : option string;
  ReportsConcerns : option bool;
  ProvidedSuggestions : option bool
}.

(** A row after [withColumn "EngagementLevelNumeric"]: the seven columns of
    the input row followed by the new one. *)
Record DerivedRow := mkDerived {
  input_row : Row;
  EngagementLevelNumeric : option Z
}.

(** A row of [groupBy("JobTitle").agg(avg(...).alias("AvgEngagementLevel"))]. *)
Record ResultRow := mkResult {
  ResultJobTitle : option string;
  AvgEngagementLevel : option Q
}.

(** ** Column expressions *)

(** [col(c) == lit]: SQL equality is three-valued, a null operand gives
    null.  String comparison is exact (binary collation). *)
Definition col_eq (v : option string) (lit : string) : option bool :=
  match v with
  | None => None
  | Some s => Some (String.eqb s lit)
  end.

(** [when(c1, v1).when(c2, v2)...otherwise(d)]: the value of the first branch
    whose condition is true; a false or null condition falls through. *)
Fixpoint case_when {A} (branches : list (option bool * A)) (otherwise : option A)
  : option A :=
  match branches with
  | [] => otherwise
  | (Some true, v) :: _ => Some v
  | _ :: rest => case_when rest otherwise
  end.

(** The expression given to [withColumn] in [convert_engagement_to_numeric]. *)
Definition engagement_numeric (level : option string) : option Z :=
  case_when [ (col_eq level "Low", 1);
              (col_eq level "Medium", 2);
              (col_eq level "High", 3) ] None.

Definition convert_engagement_to_numeric (df : list Row) : list DerivedRow :=
  (fun r => mkDerived r (engagement_numeric (EngagementLevel r))) <$> df.

(** ** Aggregation *)

(** [avg] over a nullable integer column: nulls are skipped; the result is
    null when no value is left. *)
Definition present_values (column : list (option Z)) : list Z :=
  omap id column.

Definition sum_Z (xs : list Z) : Z := foldr Z.add 0 xs.

(** Rounding to the nearest double.  A positive [q] is scaled by the
    power of two that brings it between 2^52 and 2^53, rounded to the
    nearest integer (to the even one from half way) and scaled back. *)
Definition two_to (e : Z) : Q := (2 ^ e)%Q.

Definition nearest_even (x : Q) : Z :=
  let fl := Qfloor x in
  match (x - inject_Z fl ?= 1 # 2)%Q with
  | Lt => fl
  | Gt => fl + 1
  | Eq => if Z.even fl then fl else fl + 1
  end.

Definition ulp_exponent (q : Q) : Z :=
  let e0 := Z.log2 (Qnum q) - Z.log2 (Zpos (Qden q)) - 53 in
  if Qle_bool (two_to 53) (q * two_to (- e0)) then e0 + 1 else e0.

Definition round_positive (q : Q) : Q :=
  let e := ulp_exponent q in
  (inject_Z (nearest_even (q * two_to (- e))) * two_to e)%Q.

Definition to_double (q : Q) : Q :=
  let q := Qred q in
  Qred (match Qnum q with
        | Z0 => 0
        | Zpos _ => round_positive q
        | Zneg _ => - round_positive (- q)
        end)%Q.

(** The sum divided by the count, in doubles. *)
Definition mean (xs : list Z) : option Q :=
  match xs with
  | [] => None
  | _ :: _ =>
      Some (to_double (inject_Z (sum_Z xs) / inject_Z (Z.of_nat (length xs))))
  end.

Definition avg (column : list (option Z)) : option Q :=
  mean (present_values column).

(** Grouping keys: the distinct values of JobTitle; null is a key of its
    own. *)
Definition group_keys (df : list DerivedRow) : list (option string) :=
  remove_dups ((fun d => JobTitle (input_row d)) <$> df).

Definition group_rows (k : option string) (df : list DerivedRow)
  : list DerivedRow :=
  filter (fun d => JobTitle (input_row d) = k) df.

Definition aggregate_group (df : list DerivedRow) (k : option string) : ResultRow :=
  mkResult k (avg (EngagementLevelNumeric <$> group_rows k df)).

Definition group_by_avg (df : list DerivedRow) : list ResultRow :=
  aggregate_group df <$> group_keys df.

(** [col("AvgEngagementLevel").desc()]: descending, nulls last. *)
Definition avg_ge (a b : option Q) : bool :=
  match a, b with
  | _, None => true
  | None, Some _ => false
  | Some x, Some y => Qle_bool y x
  end.

Definition desc_order (r1 r2 : ResultRow) : Prop :=
  avg_ge (AvgEngagementLevel r1) (AvgEngagementLevel r2) = true.

Global Instance desc_order_dec r1 r2 : Decision (desc_order r1 r2).
Proof. unfold desc_order. apply _. Defined.

(** ** Paths and the file system *)

(** A path given to the program is a string; the file system is keyed by
    absolute, normalised paths (lists of components, the root being the
    empty list).  An entry is a directory, a regular file, or the
    checksum side file that the engine's local file system keeps for a
    file it wrote ([of_content] is the content it sums). *)
Inductive node :=
  | Dir
  | File (content : string)
  | ChecksumFile (of_content : string).

Record World := mkWorld {
  fs : gmap (list string) node;
  cwd : list string;
  stdout : list string;
  spark_active : bool;
  calls : list string
}.

Definition is_sep (c : ascii) : bool := Ascii.eqb c "/".

Fixpoint has_sep (s : string) : bool :=
  match s with
  | EmptyString => false
  | String c rest => is_sep c || has_sep rest
  end.

Fixpoint all_sep (s : string) : bool :=
  match s with
  | EmptyString => true
  | String c rest => is_sep c && all_sep rest
  end.

(** [p[:p.rfind('/') + 1]]: a character is kept as long as a separator
    still follows (or it is one). *)
Fixpoint upto_last_sep (p : string) : string :=
  match p with
  | EmptyString => EmptyString
  | String c rest =>
      if has_sep p then String c (upto_last_sep rest) else EmptyString
  end.

(** [head.rstrip('/')]. *)
Fixpoint rstrip_sep (s : string) : string :=
  match s with
  | EmptyString => EmptyString
  | String c rest =>
      if all_sep s then EmptyString else String c (rstrip_sep rest)
  end.

Definition is_empty (s : string) : bool :=
  match s with EmptyString => true | String _ _ => false end.

(** [os.path.dirname] (posixpath). *)
Definition dirname (p : string) : string :=
  let head := upto_last_sep p in
  if negb (is_empty head) && negb (all_sep head) then rstrip_sep head
  else head.

Fixpoint split_sep (s : string) : list string :=
  match s with
  | EmptyString => [EmptyString]
  | String c rest =>
      if is_sep c then EmptyString :: split_sep rest
      else match split_sep rest with
           | [] => [String c EmptyString]
           | w :: ws => String c w :: ws
           end
  end.

Definition is_absolute (p : string) : bool :=
  match p with
  | String c _ => is_sep c
  | EmptyString => false
  end.

Definition walk (at_dir : list string) (component : string) : list string :=
  if decide (component = EmptyString) then at_dir
  else if decide (component = ".") then at_dir
  else if decide (component = "..") then removelast at_dir
  else at_dir ++ [component].



(** Path resolution against the working directory, by name; there are
    no symbolic links. *)
Definition resolve (w : World) (p : string) : list string :=
  foldl walk (if is_absolute p then [] else cwd w) (split_sep p).

Definition lookup_node (m : gmap (list string) node) (p : list string)
  : option node :=
  match p with
  | [] => Some Dir
  | _ :: _ => m !! p
  end.

(** [os.path.exists]; the empty path names nothing. *)
Definition os_path_exists (p : string) (w : World) : bool :=
  if is_empty p then false
  else bool_decide (is_Some (lookup_node (fs w) (resolve w p))).

(** Creation of every missing directory on the way from [base] down
    [todo]; [None] when a component on the way is there and is not a
    directory. *)
Fixpoint mkdirs_from (m : gmap (list string) node) (base : list string)
    (todo : list string) : option (gmap (list string) node) :=
  match todo with
  | [] => Some m
  | c :: rest =>
      let p := base ++ [c] in
      match m !! p with
      | Some Dir => mkdirs_from m p rest
      | Some (File _) | Some (ChecksumFile _) => None
      | None => mkdirs_from (<[p := Dir]> m) p rest
      end
  end.

(** Removal of a path with everything below it. *)
Definition delete_tree (p : list string) (m : gmap (list string) node)
  : gmap (list string) node :=
  filter (fun kv => ¬ p `prefix_of` kv.1) m.

(** The part of [k] below [p], when [k] is at or below [p]. *)
Fixpoint relative_to (p k : list string) : option (list string) :=
  match p, k with
  | [], _ => Some k
  | x :: p', y :: k' => if decide (x = y) then relative_to p' k' else None
  | _ :: _, [] => None
  end.

(** [k] is a directory on the way from the root down to [p]. *)
Definition on_way (p k : list string) : Prop :=
  k <> [] /\ k `prefix_of` p.

(** Nothing but directories stands on the way down to [p]. *)
Definition way_clear (m : gmap (list string) node) (p : list string) : Prop :=
  forall k v, on_way p k -> m !! k = Some v -> v = Dir.

(** ** Exceptions and the driver monad *)

(** The exceptions carry their message where the program can come to
    print it or the statements name it; the text of [NotADirectoryError]
    (which names the first directory that could not be made) is left
    out. *)
Inductive Exception :=
  | FileNotFoundError (msg : string)
  | FileExistsError (msg : string)
  | NotADirectoryError
  | EngineError.

(** A computation reads and changes the world and either returns or
    raises. *)
Definition M (A : Type) : Type := World -> (Exception + A) * World.

Global Instance M_ret : MRet M := fun A (a : A) w => (inr a, w).

Global Instance M_bind : MBind M := fun A B (k : A -> M B) (c : M A) w =>
  match c w with
  | (inl e, w') => (inl e, w')
  | (inr a, w') => k a w'
  end.

Definition raise {A} (e : Exception) : M A := fun w => (inl e, w).

(** [try: c] with the outcome handed to the [except] clauses. *)
Definition attempt {A} (c : M A) : M (Exception + A) :=
  fun w => let '(r, w') := c w in (inr r, w').

Definition get_world : M World := fun w => (inr w, w).

Definition log_call (name : string) (w : World) : World :=
  mkWorld (fs w) (cwd w) (stdout w) (spark_active w) (calls w ++ [name]).

Definition put_line (line : string) (w : World) : World :=
  mkWorld (fs w) (cwd w) (stdout w ++ [line]) (spark_active w) (calls w).

Definition put_fs (m : gmap (list string) node) (w : World) : World :=
  mkWorld m (cwd w) (stdout w) (spark_active w) (calls w).

Definition put_spark (b : bool) (w : World) : World :=
  mkWorld (fs w) (cwd w) (stdout w) b (calls w).

Definition called (name : string) : M unit :=
  fun w => (inr tt, log_call name w).

Definition print (line : string) : M unit :=
  fun w => (inr tt, put_line line w).

Definition set_fs (m : gmap (list string) node) : M unit :=
  fun w => (inr tt, put_fs m w).

Definition set_spark (b : bool) : M unit :=
  fun w => (inr tt, put_spark b w).

(** [SparkSession.builder.appName(...).getOrCreate()]. *)
Definition initialize_spark : M unit :=
  called "initialize_spark" ;; set_spark true.

(** [spark.stop()]. *)
Definition spark_stop : M unit :=
  called "stop" ;; set_spark false.

(** [os.makedirs(name)]. *)
Definition os_makedirs (name : string) : M unit :=
  w ← get_world;
  if is_empty name then
    raise (FileNotFoundError "[Errno 2] No such file or directory: ''")
  else
    let p := resolve w name in
    if bool_decide (is_Some (lookup_node (fs w) p)) then
      raise (FileExistsError ("[Errno 17] File exists: '" +:+ name +:+ "'"))
    else
      match mkdirs_from (fs w) [] p with
      | None => raise NotADirectoryError
      | Some m => set_fs m
      end.

(** ** Writing a table as CSV *)

Inductive SaveMode := Overwrite | ErrorIfExists | Append | Ignore.

Definition newline : string := String "010"%char EmptyString.

Definition header_line : string := "JobTitle,AvgEngagementLevel".

Definition pad5 (i : nat) : string :=
  let digits := pretty i in
  foldr String.app digits (replicate (5 - String.length digits) "0").

Definition part_name (uuid : string) (i : nat) : string :=
  "part-" +:+ pad5 i +:+ "-" +:+ uuid +:+ "-c000.csv".

Definition success_marker : string := "_SUCCESS".

(** One task per partition; the first task always writes its file, the
    others only when their partition has rows. *)
Definition task_writes (i : nat) (partition : list ResultRow) : bool :=
  bool_decide (i = 0%nat) || negb (bool_decide (partition = [])).

(** The side file of [name]: [.name.crc]. *)
Definition checksum_name (name : string) : string :=
  "." +:+ name +:+ ".crc".

(** The files of a job as the checksummed local file system stores them:
    each with its checksum side file. *)
Fixpoint add_files (dir : list string) (files : list (string * string))
    (m : gmap (list string) node) : gmap (list string) node :=
  match files with
  | [] => m
  | (name, content) :: rest =>
      <[dir ++ [name] := File content]>
        (<[dir ++ [checksum_name name] := ChecksumFile content]>
           (add_files dir rest m))
  end.

(** The hard-coded paths of [main], resolved. *)
Definition repository : string :=
  "spark-structured-api-employee-engagement-analysis-bhanukocherla".

Definition input_file_path : list string :=
  ["workspaces"; repository; "input"; "employee_data.csv"].

Definition output_dir_path : list string :=
  ["workspaces"; repository; "outputs"; "task3"].

Definition output_file_path : list string :=
  output_dir_path ++ ["engagement_comparison.csv"].

Section Engine.

(** The order in which the shuffle hands the groups to the sort is the
    engine's business; it is some rearrangement of them. *)
Variable arrange : list ResultRow -> list ResultRow.
Hypothesis arrange_perm : forall l, arrange l ≡ₚ l.

(** [spark.read.csv(path, header=True, schema=schema)], materialised:
    the rows, or [None] when the engine fails.  What is read depends on
    nothing but the files at and below the path. *)
Variable read_csv : gmap (list string) node -> list string -> option (list Row).
Hypothesis read_csv_local : forall m1 m2 p,
  (forall k, p `prefix_of` k -> m1 !! k = m2 !! k) ->
  read_csv m1 p = read_csv m2 p.

(** How the sorted rows are spread over the partitions of the result. *)
Variable partitioning : list ResultRow -> list (list ResultRow).
Hypothesis partitioning_concat : forall l, concat (partitioning l) = l.

(** A result row as a CSV line, and the table drawn by [show]. *)
Variable format_row : ResultRow -> string.
Variable show_string : list ResultRow -> string.

Definition load_data (file_path : string) : M (list Row) :=
  called "load_data";;
  w ← get_world;
  if negb (os_path_exists file_path w) then
    raise (FileNotFoundError
             ("File not found: " +:+ file_path +:+
              ". Please check the file path."))
  else
    match read_csv (fs w) (resolve w file_path) with
    | Some df => mret df
    | None => raise EngineError
    end.

Definition order_by_desc (rows : list ResultRow) : list ResultRow :=
  merge_sort desc_order (arrange rows).

Definition compare_engagement_levels (df : list Row) : list ResultRow :=
  let df := convert_engagement_to_numeric df in
  let avg_engagement_df := group_by_avg df in
  order_by_desc avg_engagement_df.

(** [coalesce(1)]. *)
Definition coalesce1 (parts : list (list ResultRow)) : list (list ResultRow) :=
  [concat parts].

Definition csv_text (header : bool) (rows : list ResultRow) : string :=
  (if header then header_line +:+ newline else EmptyString) +:+
  foldr (fun r rest => format_row r +:+ newline +:+ rest) EmptyString rows.

Definition part_files (header : bool) (uuid : string)
    (parts : list (list ResultRow)) : list (string * string) :=
  omap (fun ip => if task_writes ip.1 ip.2
                  then Some (part_name uuid ip.1, csv_text header ip.2)
                  else None)
       (imap (fun i p => (i, p)) parts).

(** [df.write.csv(path, header=..., mode=...)] for the job named [uuid]. *)
Definition write_csv (parts : list (list ResultRow)) (path : string)
    (header : bool) (mode : SaveMode) (uuid : string) : M unit :=
  w ← get_world;
  let p := resolve w path in
  let present := bool_decide (is_Some (lookup_node (fs w) p)) in
  let commit (m : gmap (list string) node) : M unit :=
    match mkdirs_from m [] p with
    | None => raise EngineError
    | Some m' =>
        set_fs (add_files p ((success_marker, EmptyString)
                               :: part_files header uuid parts) m')
    end in
  match mode with
  | Overwrite => commit (delete_tree p (fs w))
  | Append => commit (fs w)
  | ErrorIfExists => if present then raise EngineError else commit (fs w)
  | Ignore => if present then mret tt else commit (fs w)
  end.

Definition write_output (result_df : list ResultRow) (output_path : string)
    (uuid : string) : M unit :=
  called "write_output";;
  let output_dir := dirname output_path in
  w ← get_world;
  (if negb (os_path_exists output_dir w) then os_makedirs output_dir
   else mret tt);;
  write_csv (coalesce1 (partitioning result_df)) output_path true Overwrite
    uuid.

Definition input_file : string :=
  "/workspaces/spark-structured-api-employee-engagement-analysis-bhanukocherla/input/employee_data.csv".

Definition output_file : string :=
  "/workspaces/spark-structured-api-employee-engagement-analysis-bhanukocherla/outputs/task3/engagement_comparison.csv".

Definition not_found_message : string :=
  "File not found: " +:+ input_file +:+ ". Please check the file path.".

(** What [result_df.show()] prints: the table of the first 20 rows, and
    under it a line saying so when the table has more. *)
Definition show (rows : list ResultRow) : string :=
  show_string (take 20 rows) +:+
  (if bool_decide (20 < length rows)%nat
   then "only showing top 20 rows" +:+ newline
   else EmptyString).

Definition main (uuid : string) : M unit :=
  initialize_spark;;
  loaded ← attempt (load_data input_file) ;
  match loaded with
  | inl (FileNotFoundError e) => print e ;; spark_stop
  | inl other => raise other
  | inr df =>
      called "compare_engagement_levels";;
      let result_df := compare_engagement_levels df in
      print "Engagement Level Comparison Across Job Titles:";;
      called "show";;
      print (show result_df);;
      write_output result_df output_file uuid;;
      print ("Results saved to " +:+ output_file);;
      spark_stop
  end.

(** The rows [main] computes from the file system, when it gets to
    compute any. *)
Definition main_rows (m : gmap (list string) node) : option (list ResultRow) :=
  if bool_decide (is_Some (m !! input_file_path)) then
    compare_engagement_levels <$> read_csv m input_file_path
  else None.

Definition written_files (uuid : string) (rows : list ResultRow)
  : list (string * string) :=
  [ (success_marker, EmptyString);
    (part_name uuid 0, csv_text true (concat (partitioning rows))) ].

(** What [main] does to the file system, as a function of the file
    system. *)
Definition main_fs (uuid : string) (m : gmap (list string) node)
  : gmap (list string) node :=
  match main_rows m with
  | None => m
  | Some rows =>
      match (if bool_decide (is_Some (m !! output_dir_path)) then Some m
             else mkdirs_from m [] output_dir_path) with
      | None => m
      | Some m1 =>
          match mkdirs_from (delete_tree output_file_path m1) []
                  output_file_path with
          | None => m1
          | Some m3 => add_files output_file_path (written_files uuid rows) m3
          end
      end
  end.

End Engine.

(** The exit status of the process: 0 when [main] returns, 1 when an
    exception escapes it. *)
Definition exit_code (outcome : Exception + unit) : Z :=
  match outcome with
  | inr _ => 0
  | inl _ => 1
  end.

(** ** What a reader of the output sees *)

(** The entry called [name] among the stored [files]: a file of the job
    or the side file of one. *)
Fixpoint file_node (name : string) (files : list (string * string))
  : option node :=
  match files with
  | [] => None
  | (n, c) :: rest =>
      if decide (n = name) then Some (File c)
      else if decide (checksum_name n = name) then Some (ChecksumFile c)
      else file_node name rest
  end.

(** The file system entry at [k] once a job has written [files] at [p]
    over the file system [m]. *)
Definition written_lookup (p : list string) (files : list (string * string))
    (m : gmap (list string) node) (k : list string) : option node :=
  match relative_to p k with
  | Some [] => Some Dir
  | Some [name] => file_node name files
  | Some (_ :: _ :: _) => None
  | None => if decide (on_way p k) then Some Dir else m !! k
  end.

Definition written (p : list string) (files : list (string * string))
    (m m' : gmap (list string) node) : Prop :=
  forall k, m' !! k = written_lookup p files m k.

(** Data files are the files whose name starts with neither an underscore
    nor a dot. *)
Definition is_data_name (name : string) : bool :=
  match name with
  | String c _ => negb (Ascii.eqb c "_") && negb (Ascii.eqb c ".")
  | EmptyString => false
  end.

Definition is_data_file (dir : list string) (kv : list string * node) : bool :=
  match kv.2, relative_to dir kv.1 with
  | File _, Some [name] => is_data_name name
  | _, _ => false
  end.

(** The contents of the data files of the data set written at [dir]. *)
Definition output_contents (m : gmap (list string) node) (dir : list string)
  : list node :=
  (map_to_list (filter (fun kv => is_data_file dir kv = true) m)).*2.

(** * Properties *)

(** ** The reading of the data model used in the statements *)

(** The three-way mapping of the data model, case by case. *)
Definition engagement_mapping (level : option string) : option Z :=
  if decide (level = Some "Low") then Some 1
  else if decide (level = Some "Medium") then Some 2
  else if decide (level = Some "High") then Some 3
  else None.

(** The numeric values contributed by the input rows of one job title: the
    rows whose EngagementLevel maps to a present value. *)
Definition job_title_values (df : list Row) (k : option string) : list Z :=
  omap (fun r => engagement_mapping (EngagementLevel r))
       (filter (fun r => JobTitle r = k) df).

Definition distinct_job_titles (df : list Row) : list (option string) :=
  remove_dups (JobTitle <$> df).

(** The arithmetic mean, as a rational number. *)
Definition arithmetic_mean (xs : list Z) : Q :=
  (inject_Z (sum_Z xs) / inject_Z (Z.of_nat (length xs)))%Q.

(** The numbers a double can hold: a significand of at most 53 bits
    times a power of two. *)
Definition is_double (f : Q) : Prop :=
  exists m e : Z, Z.abs m < 2 ^ 53 /\ (f == inject_Z m * two_to e)%Q.

(** The job titles with at least one present numeric value. *)
Definition job_titles_with_value (df : list Row) : list (option string) :=
  filter (fun k => job_title_values df k <> []) (distinct_job_titles df).

(** ** Sample data *)

Definition employee (id : Z) (title level : string) : Row :=
  mkRow (Some id) (Some "Eng") (Some title) (Some 7) (Some level)
        (Some false) (Some true).

Definition sample_table : list Row :=
  [ employee 1 "SWE" "High"; employee 2 "SWE" "Low";
    employee 3 "PM" "Medium"; employee 4 "QA" "Unknown";
    employee 5 "Ops" "High"; employee 6 "Ops" "High";
    employee 7 "Ops" "Medium" ].

(** The three rows of the worked example. *)
Definition example_table : list Row :=
  [ mkRow (Some 1) (Some "Eng") (Some "SWE") (Some 8) (Some "High")
          (Some false) (Some true);
    mkRow (Some 2) (Some "Eng") (Some "SWE") (Some 6) (Some "Low")
          (Some true) (Some false);
    mkRow (Some 3) (Some "Eng") (Some "PM") (Some 7) (Some "Medium")
          (Some false) (Some false) ].

Definition unknown_only_table : list Row :=
  [ employee 4 "QA" "Unknown" ].

(** An engine that hands the groups to the sort in the order it formed
    them. *)
Definition keep_order (rows : list ResultRow) : list ResultRow := rows.

(** A reader that finds [sample_table] in any regular file. *)
Definition sample_reader (m : gmap (list string) node) (p : list string)
  : option (list Row) :=
  match m !! p with
  | Some (File _) => Some sample_table
  | _ => None
  end.

Definition one_partition (rows : list ResultRow) : list (list ResultRow) :=
  [rows].

Definition sample_format (r : ResultRow) : string :=
  default EmptyString (ResultJobTitle r) +:+ "," +:+
  match AvgEngagementLevel r with
  | Some q => pretty (Qnum q) +:+ "/" +:+ pretty (Zpos (Qden q))
  | None => EmptyString
  end.

Definition sample_show (rows : list ResultRow) : string :=
  foldr (fun r rest => sample_format r +:+ newline +:+ rest) EmptyString rows.

(** A machine with nothing but the root directory. *)
Definition empty_world : World :=
  mkWorld ∅ [] [] false [].

(** A machine with the input file in place and no output yet; the working
    directory is /home. *)
Definition sample_world : World :=
  mkWorld (list_to_map
             [ (["home"], Dir);
               (["workspaces"], Dir);
               (["workspaces"; repository], Dir);
               (["workspaces"; repository; "input"], Dir);
               (input_file_path, File "EmployeeID,Department,JobTitle") ])
          ["home"] [] false [].

(** The sample machine with a regular file where the directory
    [outputs] should be. *)
Definition blocked_world : World :=
  mkWorld (<[ ["workspaces"; repository; "outputs"] := File "notes" ]>
             (fs sample_world))
          ["home"] [] false [].

(** The sample machine with a directory where the input file should be;
    [sample_reader] fails on it. *)
Definition unreadable_world : World :=
  mkWorld (<[ input_file_path := Dir ]> (fs sample_world))
          ["home"] [] false [].

(** ** Transformer *)

Lemma engagement_numeric_spec level :
  engagement_numeric level = engagement_mapping level.
Proof.
  unfold engagement_numeric, engagement_mapping, col_eq.
  destruct level as [s|]; simpl; [|by repeat case_decide].
  destruct (String.eqb_spec s "Low") as [->|HL]; [done|].
  destruct (String.eqb_spec s "Medium") as [->|HM]; [done|].
  destruct (String.eqb_spec s "High") as [->|HH]; [done|].
  repeat case_decide; congruence.
Qed.

(** C1. For every input row the derived column EngagementLevelNumeric is 1
    for "Low", 2 for "Medium", 3 for "High" and null for anything else,
    null included; it is a function of the EngagementLevel value alone. *)
Theorem engagement_level_numeric_mapping (df : list Row) :
  EngagementLevelNumeric <$> convert_engagement_to_numeric df
  = (fun r => engagement_mapping (EngagementLevel r)) <$> df.
Proof.
  unfold convert_engagement_to_numeric.
  rewrite <- list_fmap_compose. apply list_fmap_ext.
  intros _ r _. apply engagement_numeric_spec.
Qed.

(** C9. The transformer keeps every row, in place and as often as it
    occurs, with all seven input columns as they were; the derived rows
    differ from the input rows by the appended column only. *)
Theorem convert_keeps_input_rows (df : list Row) :
  input_row <$> convert_engagement_to_numeric df = df.
Proof.
  unfold convert_engagement_to_numeric.
  induction df as [|r df IH]; [done|].
  rewrite !fmap_cons. cbn [input_row]. by rewrite IH.
Qed.

(** ** Doubles *)

Lemma two_to_pos (e : Z) : (0 < two_to e)%Q.
Proof. by apply Qpower_0_lt. Qed.

Lemma two_to_plus (n m : Z) : (two_to (n + m) == two_to n * two_to m)%Q.
Proof. by apply Qpower_plus. Qed.

Lemma two_to_le (n m : Z) : n <= m -> (two_to n <= two_to m)%Q.
Proof. intros H. by apply Qpower_le_compat_l. Qed.

Lemma two_to_lt (n m : Z) : n < m -> (two_to n < two_to m)%Q.
Proof. intros H. by apply Qpower_lt_compat_l. Qed.

Lemma two_to_inject (n : Z) : 0 <= n -> (two_to n == inject_Z (2 ^ n))%Q.
Proof. intros H. unfold two_to. by rewrite Zpower_Qpower. Qed.

Lemma two_to_cancel (e : Z) : (two_to (- e) * two_to e == 1)%Q.
Proof. rewrite <- two_to_plus. by replace (- e + e) with 0 by lia. Qed.

(** [nearest_even x] is an integer nearest to [x]. *)
Lemma nearest_even_nearest (x : Q) (k : Z) :
  (Qabs (x - inject_Z (nearest_even x)) <= Qabs (x - inject_Z k))%Q.
Proof.
  pose proof (Qfloor_le x) as Hlo. pose proof (Qlt_floor x) as Hhi.
  rewrite inject_Z_plus in Hhi. change (inject_Z 1) with 1%Q in Hhi.
  assert (inject_Z k <= inject_Z (Qfloor x) \/
          inject_Z (Qfloor x) + 1 <= inject_Z k)%Q as Hk.
  { destruct (Z_le_gt_dec k (Qfloor x)) as [H|H].
    - left. by rewrite <- Zle_Qle.
    - right. change 1%Q with (inject_Z 1).
      rewrite <- inject_Z_plus, <- Zle_Qle. lia. }
  unfold nearest_even.
  destruct (Qcompare_spec (x - inject_Z (Qfloor x)) (1 # 2)) as [Heq|Hlt|Hgt].
  - destruct (Z.even (Qfloor x)).
    + apply Qabs_case; intros; apply Qabs_case; intros; lra.
    + rewrite inject_Z_plus. change (inject_Z 1) with 1%Q.
      apply Qabs_case; intros; apply Qabs_case; intros; lra.
  - apply Qabs_case; intros; apply Qabs_case; intros; lra.
  - rewrite inject_Z_plus. change (inject_Z 1) with 1%Q.
    apply Qabs_case; intros; apply Qabs_case; intros; lra.
Qed.

Lemma log2_bounds (n : Z) :
  0 < n ->
  (two_to (Z.log2 n) <= inject_Z n < two_to (Z.log2 n + 1))%Q.
Proof.
  intros Hn. pose proof (Z.log2_spec n Hn) as [Hlo Hhi].
  pose proof (Z.log2_nonneg n) as Hnn.
  rewrite !two_to_inject by lia. rewrite <- Zle_Qle, <- Zlt_Qlt.
  by rewrite <- Z.add_1_r in Hhi.
Qed.

(** Scaled by its exponent, a positive number has a significand of 53
    bits. *)
Lemma ulp_exponent_spec (q : Q) :
  (0 < q)%Q ->
  (two_to 52 <= q * two_to (- ulp_exponent q) < two_to 53)%Q.
Proof.
  intros Hq. unfold ulp_exponent.
  set (la := Z.log2 (Qnum q)). set (lb := Z.log2 (Z.pos (Qden q))).
  set (e0 := la - lb - 53).
  assert (0 < Qnum q) as Ha by (destruct q; unfold Qlt in Hq; simpl in *; lia).
  pose proof (log2_bounds (Qnum q) Ha) as [Halo Hahi]. fold la in Halo, Hahi.
  pose proof (log2_bounds (Z.pos (Qden q)) ltac:(lia)) as [Hblo Hbhi].
  fold lb in Hblo, Hbhi.
  assert (q * inject_Z (Z.pos (Qden q)) == inject_Z (Qnum q))%Q as Hqb.
  { destruct q as [a b]. unfold Qeq, Qmult, inject_Z. simpl. lia. }
  pose proof (two_to_pos lb) as Hlb. pose proof (two_to_pos (- e0)) as He0.
  pose proof (two_to_pos (- (e0 + 1))) as He1.
  assert (two_to (la + 1) * two_to (- e0) == two_to 54 * two_to lb)%Q as H54.
  { rewrite <- !two_to_plus. by replace (la + 1 + - e0) with (54 + lb) by lia. }
  assert (two_to la * two_to (- e0) == two_to 52 * two_to (lb + 1))%Q as H52.
  { rewrite <- !two_to_plus. by replace (la + - e0) with (52 + (lb + 1)) by lia. }
  assert (two_to (- e0) == 2 * two_to (- (e0 + 1)))%Q as Hhalf.
  { change 2%Q with (two_to 1). rewrite <- two_to_plus.
    by replace (1 + - (e0 + 1)) with (- e0) by lia. }
  assert (0 < inject_Z (Z.pos (Qden q)))%Q as HB by lra.
  assert (q * two_to (- e0) * inject_Z (Z.pos (Qden q))
          == inject_Z (Qnum q) * two_to (- e0))%Q as Hx
    by (rewrite <- Hqb; ring).
  assert (two_to 52 < q * two_to (- e0) < two_to 54)%Q as [Hlo Hhi].
  { split; apply (Qmult_lt_r _ _ _ HB); rewrite Hx.
    - apply Qlt_le_trans with (two_to 52 * two_to (lb + 1))%Q.
      + apply Qmult_lt_l; [apply two_to_pos|done].
      + rewrite <- H52. apply Qmult_le_compat_r; [done|]. by apply Qlt_le_weak.
    - apply Qlt_le_trans with (two_to (la + 1) * two_to (- e0))%Q.
      + by apply Qmult_lt_r.
      + rewrite H54. apply Qmult_le_l; [apply two_to_pos|done]. }
  assert (q * two_to (- e0) == 2 * (q * two_to (- (e0 + 1))))%Q as Hx1
    by (rewrite Hhalf; ring).
  change (two_to 54) with 18014398509481984%Q in *.
  change (two_to 53) with 9007199254740992%Q in *.
  change (two_to 52) with 4503599627370496%Q in *.
  destruct (Qle_bool 9007199254740992 (q * two_to (- e0))) eqn:Hcmp.
  - apply Qle_bool_iff in Hcmp. split; lra.
  - assert (~ (9007199254740992 <= q * two_to (- e0))%Q) as Hlt
      by (rewrite <- Qle_bool_iff; congruence).
    apply Qnot_le_lt in Hlt. split; lra.
Qed.

Lemma significand_bounds (q : Q) :
  (0 < q)%Q ->
  2 ^ 52 <= nearest_even (q * two_to (- ulp_exponent q)) <= 2 ^ 53.
Proof.
  intros Hq. pose proof (ulp_exponent_spec q Hq) as [Hlo Hhi].
  revert Hlo Hhi. generalize (q * two_to (- ulp_exponent q))%Q. intros x.
  change (two_to 53) with 9007199254740992%Q.
  change (two_to 52) with 4503599627370496%Q.
  intros Hlo Hhi. split.
  - destruct (Z_lt_le_dec (nearest_even x) (2 ^ 52)) as [Hm|Hm]; [|done].
    pose proof (nearest_even_nearest x (2 ^ 52)) as Hnear.
    assert (inject_Z (nearest_even x) + 1 <= 4503599627370496)%Q as Hm'.
    { change 1%Q with (inject_Z 1).
      change 4503599627370496%Q with (inject_Z (2 ^ 52)).
      rewrite <- inject_Z_plus, <- Zle_Qle. lia. }
    change (inject_Z (2 ^ 52)) with 4503599627370496%Q in Hnear.
    revert Hnear. apply Qabs_case; intros ?; apply Qabs_case; intros; lra.
  - destruct (Z_lt_le_dec (2 ^ 53) (nearest_even x)) as [Hm|Hm]; [|done].
    pose proof (nearest_even_nearest x (2 ^ 53)) as Hnear.
    assert (9007199254740992 + 1 <= inject_Z (nearest_even x))%Q as Hm'.
    { change 1%Q with (inject_Z 1).
      change 9007199254740992%Q with (inject_Z (2 ^ 53)).
      rewrite <- inject_Z_plus, <- Zle_Qle. lia. }
    change (inject_Z (2 ^ 53)) with 9007199254740992%Q in Hnear.
    revert Hnear. apply Qabs_case; intros ?; apply Qabs_case; intros; lra.
Qed.

Lemma round_positive_is_double (q : Q) :
  (0 < q)%Q -> is_double (round_positive q).
Proof.
  intros Hq. pose proof (significand_bounds q Hq) as [Hlo Hhi].
  unfold round_positive.
  set (e := ulp_exponent q) in *.
  set (m := nearest_even (q * two_to (- e))) in *.
  destruct (Z_lt_le_dec m (2 ^ 53)) as [Hm|Hm].
  - exists m, e. split; [lia|done].
  - exists (2 ^ 52), (e + 1). split; [lia|].
    replace m with (2 ^ 53) by lia.
    rewrite two_to_plus. change (two_to 1) with 2%Q.
    change (inject_Z (2 ^ 53)) with (inject_Z (2 ^ 52) * 2)%Q. ring.
Qed.

(** No double is nearer to [q] than [round_positive q]. *)
Lemma round_positive_nearest (q f : Q) :
  (0 < q)%Q -> is_double f ->
  (Qabs (q - round_positive q) <= Qabs (q - f))%Q.
Proof.
  intros Hq (m' & e' & Hm' & Hf).
  pose proof (ulp_exponent_spec q Hq) as [Hlo Hhi].
  unfold round_positive.
  set (e := ulp_exponent q) in *.
  set (x := (q * two_to (- e))%Q) in *.
  pose proof (two_to_pos e) as He.
  assert (q == x * two_to e)%Q as Hqx.
  { unfold x. rewrite <- Qmult_assoc, two_to_cancel. ring. }
  set (y := (inject_Z m' * two_to (e' - e))%Q).
  assert (f == y * two_to e)%Q as Hfy.
  { rewrite Hf. unfold y. rewrite <- Qmult_assoc, <- two_to_plus.
    by replace (e' - e + e) with e' by lia. }
  assert (forall a b, Qabs (a * two_to e - b * two_to e)
                      == Qabs (a - b) * two_to e)%Q as Hscale.
  { intros a b. rewrite <- (Qabs_pos (two_to e)) at 3 by lra.
    rewrite <- Qabs_Qmult. apply Qabs_wd. ring. }
  rewrite Hfy. rewrite Hqx at 1 2. rewrite !Hscale.
  apply Qmult_le_compat_r; [|lra].
  destruct (Z_le_gt_dec e e') as [Hee|Hee].
  - assert (y == inject_Z (m' * 2 ^ (e' - e)))%Q as ->.
    { unfold y. rewrite inject_Z_mult, two_to_inject by lia. done. }
    apply nearest_even_nearest.
  - pose proof (nearest_even_nearest x (2 ^ 52)) as Hnear.
    change (inject_Z (2 ^ 52)) with 4503599627370496%Q in Hnear.
    change (two_to 52) with 4503599627370496%Q in Hlo.
    assert (y < 4503599627370496)%Q as Hy.
    { pose proof (two_to_pos (e' - e)) as Ht.
      pose proof (two_to_le (e' - e) (-1) ltac:(lia)) as Ht'.
      change (two_to (-1)) with (1 # 2)%Q in Ht'.
      assert (inject_Z m' <= 9007199254740991)%Q as Hm.
      { change 9007199254740991%Q with (inject_Z (2 ^ 53 - 1)).
        rewrite <- Zle_Qle. lia. }
      unfold y. nra. }
    revert Hnear. do 3 (apply Qabs_case; intros ?); intros; lra.
Qed.

Lemma is_double_opp (f : Q) : is_double f -> is_double (- f).
Proof.
  intros (m & e & Hm & Hf). exists (- m), e. split; [lia|].
  rewrite Hf, inject_Z_opp. ring.
Qed.

Global Instance is_double_proper : Proper (Qeq ==> iff) is_double.
Proof.
  intros f g Hfg. unfold is_double.
  split; intros (m & e & Hm & Hf); exists m, e; split; try done.
  - by rewrite <- Hfg.
  - by rewrite Hfg.
Qed.

Lemma Qnum_sign (q : Q) :
  match Qnum q with
  | Z0 => (q == 0)%Q
  | Zpos _ => (0 < q)%Q
  | Zneg _ => (0 < - q)%Q
  end.
Proof. destruct q as [[|a|a] b]; unfold Qeq, Qlt; simpl; lia. Qed.

Lemma to_double_is_double (q : Q) : is_double (to_double q).
Proof.
  unfold to_double. rewrite Qred_correct.
  pose proof (Qnum_sign (Qred q)) as Hsign.
  destruct (Qnum (Qred q)).
  - exists 0, 0. split; [done|]. reflexivity.
  - by apply round_positive_is_double.
  - by apply is_double_opp, round_positive_is_double.
Qed.

(** [to_double q] is a double, and no double is nearer to [q]. *)
Lemma to_double_nearest (q f : Q) :
  is_double f -> (Qabs (q - to_double q) <= Qabs (q - f))%Q.
Proof.
  intros Hf. unfold to_double. rewrite Qred_correct.
  pose proof (Qnum_sign (Qred q)) as Hsign.
  rewrite <- (Qred_correct q) at 1 3.
  destruct (Qnum (Qred q)).
  - rewrite Hsign. apply Qabs_nonneg.
  - by apply round_positive_nearest.
  - pose proof (round_positive_nearest (- Qred q) (- f) Hsign
                  (is_double_opp f Hf)) as Hnear.
    revert Hnear. do 2 (apply Qabs_case; intros ?); intros Hnear;
      do 2 (apply Qabs_case; intros ?); lra.
Qed.

Lemma to_double_proper (q q' : Q) : (q == q')%Q -> to_double q = to_double q'.
Proof. intros Hq. unfold to_double. by rewrite (Qred_complete q q' Hq). Qed.

(** A double is its own rounding. *)
Lemma to_double_exact (f : Q) : is_double f -> (to_double f == f)%Q.
Proof.
  intros Hf. pose proof (to_double_nearest f f Hf) as Hnear.
  revert Hnear. do 2 (apply Qabs_case; intros ?); intros; lra.
Qed.

(** Rounding keeps the order. *)
Lemma to_double_monotone (q q' : Q) :
  (q <= q')%Q -> (to_double q <= to_double q')%Q.
Proof.
  intros Hle. apply Qnot_lt_le. intros Hlt.
  pose proof (to_double_nearest q (to_double q') (to_double_is_double q'))
    as Hq.
  pose proof (to_double_nearest q' (to_double q) (to_double_is_double q))
    as Hq'.
  assert (q == q')%Q as Heq.
  { revert Hq Hq'.
    do 2 (apply Qabs_case; intros ?); intros Hq;
      do 2 (apply Qabs_case; intros ?); intros Hq'; lra. }
  rewrite (to_double_proper q q' Heq) in Hlt. by apply Qlt_irrefl in Hlt.
Qed.

Lemma to_double_canonical (q : Q) : Qred (to_double q) = to_double q.
Proof. apply Qcanon.Qred_involutive. Qed.

Lemma nearest_even_half (x : Q) :
  (Qabs (x - inject_Z (nearest_even x)) <= 1 # 2)%Q.
Proof.
  pose proof (Qfloor_le x) as Hlo. pose proof (Qlt_floor x) as Hhi.
  rewrite inject_Z_plus in Hhi. change (inject_Z 1) with 1%Q in Hhi.
  pose proof (nearest_even_nearest x (Qfloor x)) as H0.
  pose proof (nearest_even_nearest x (Qfloor x + 1)) as H1.
  rewrite inject_Z_plus in H1. change (inject_Z 1) with 1%Q in H1.
  revert H0 H1. do 3 (apply Qabs_case; intros ?); intros; lra.
Qed.

Lemma round_positive_error (q : Q) :
  (0 < q)%Q -> (Qabs (q - round_positive q) <= q * (1 # 2 ^ 53))%Q.
Proof.
  intros Hq. pose proof (ulp_exponent_spec q Hq) as [Hlo _].
  unfold round_positive.
  set (e := ulp_exponent q) in *.
  set (x := (q * two_to (- e))%Q) in *.
  pose proof (two_to_pos e) as He.
  assert (q == x * two_to e)%Q as Hqx.
  { unfold x. rewrite <- Qmult_assoc, two_to_cancel. ring. }
  pose proof (nearest_even_half x) as Hhalf.
  change (two_to 52) with 4503599627370496%Q in Hlo.
  assert (Qabs (x * two_to e - inject_Z (nearest_even x) * two_to e)
          == Qabs (x - inject_Z (nearest_even x)) * two_to e)%Q as Hscale.
  { rewrite <- (Qabs_pos (two_to e)) at 3 by lra.
    rewrite <- Qabs_Qmult. apply Qabs_wd. ring. }
  rewrite Hqx at 1 2. rewrite Hscale.
  apply Qle_trans with (x * (1 # 2 ^ 53) * two_to e)%Q;
    [|apply Qle_lteq; right; ring].
  apply Qmult_le_compat_r; [|lra].
  change (1 # 2 ^ 53)%Q with (1 # 9007199254740992)%Q. lra.
Qed.

(** The relative error of a rounding is at most 2^-53. *)
Lemma to_double_error (q : Q) :
  (Qabs (q - to_double q) <= Qabs q * (1 # 2 ^ 53))%Q.
Proof.
  unfold to_double. rewrite Qred_correct.
  pose proof (Qnum_sign (Qred q)) as Hsign.
  rewrite <- (Qred_correct q) at 1 3.
  destruct (Qnum (Qred q)).
  - rewrite Hsign. by vm_compute.
  - rewrite (Qabs_pos (Qred q)) by lra. by apply round_positive_error.
  - pose proof (round_positive_error (- Qred q) Hsign) as Herr.
    rewrite (Qabs_neg (Qred q)) by lra.
    revert Herr. apply Qabs_case; intros ?; intros Herr;
      apply Qabs_case; intros ?; lra.
Qed.

Lemma is_double_small (v : Z) : Z.abs v < 2 ^ 53 -> is_double (inject_Z v).
Proof.
  intros Hv. exists v, 0. split; [done|].
  change (two_to 0) with 1%Q. ring.
Qed.

(** ** Aggregator *)

Lemma group_keys_convert (df : list Row) :
  group_keys (convert_engagement_to_numeric df) = distinct_job_titles df.
Proof.
  unfold group_keys, distinct_job_titles, convert_engagement_to_numeric.
  by rewrite <- list_fmap_compose.
Qed.

Lemma group_values_convert (df : list Row) (k : option string) :
  present_values
    (EngagementLevelNumeric <$>
       group_rows k (convert_engagement_to_numeric df))
  = job_title_values df k.
Proof.
  unfold present_values, group_rows, job_title_values,
    convert_engagement_to_numeric.
  induction df as [|r df IH]; [done|].
  rewrite fmap_cons, !filter_cons. cbn [input_row].
  destruct (decide (JobTitle r = k)) as [_|_]; [|done].
  rewrite fmap_cons. cbn [omap list_omap EngagementLevelNumeric id].
  by rewrite IH, engagement_numeric_spec.
Qed.

Lemma aggregate_group_convert (df : list Row) (k : option string) :
  aggregate_group (convert_engagement_to_numeric df) k
  = mkResult k (mean (job_title_values df k)).
Proof.
  unfold aggregate_group, avg. by rewrite group_values_convert.
Qed.

Lemma group_by_avg_convert (df : list Row) :
  group_by_avg (convert_engagement_to_numeric df)
  = (fun k => mkResult k (mean (job_title_values df k)))
      <$> distinct_job_titles df.
Proof.
  unfold group_by_avg. rewrite group_keys_convert.
  apply list_fmap_ext. intros _ k _. apply aggregate_group_convert.
Qed.

Lemma engagement_mapping_range (level : option string) (n : Z) :
  engagement_mapping level = Some n -> 1 <= n <= 3.
Proof.
  unfold engagement_mapping. repeat case_decide; intros [= <-]; lia.
Qed.

Lemma job_title_values_range (df : list Row) (k : option string) :
  Forall (fun n => 1 <= n <= 3) (job_title_values df k).
Proof.
  unfold job_title_values. apply Forall_forall. intros n Hn.
  apply list_elem_of_omap in Hn as (r & _ & Hr).
  by eapply engagement_mapping_range.
Qed.

Lemma sum_Z_bounds (xs : list Z) :
  Forall (fun n => 1 <= n <= 3) xs ->
  Z.of_nat (length xs) <= sum_Z xs <= 3 * Z.of_nat (length xs).
Proof.
  induction 1 as [|x xs Hx _ IH]; simpl; [lia|].
  unfold sum_Z in *. simpl. lia.
Qed.

Lemma mean_Some (xs : list Z) (q : Q) :
  mean xs = Some q -> xs <> [] /\ q = to_double (arithmetic_mean xs).
Proof. destruct xs as [|x xs]; [done|]. by intros [= <-]. Qed.

Lemma mean_None (xs : list Z) : mean xs = None -> xs = [].
Proof. by destruct xs. Qed.

Lemma mean_bounds (xs : list Z) (q : Q) :
  Forall (fun n => 1 <= n <= 3) xs ->
  mean xs = Some q -> (1 <= q <= 3)%Q.
Proof.
  intros Hxs Hq. pose proof (sum_Z_bounds xs Hxs) as [Hlo Hhi].
  destruct xs as [|x xs]; [done|]. injection Hq as <-.
  set (s := sum_Z (x :: xs)) in *.
  set (n := Z.of_nat (length (x :: xs))) in *.
  assert (0 < n) as Hn by (unfold n; simpl length; lia).
  assert (inject_Z 0 < inject_Z n)%Q as HnQ by (rewrite <- Zlt_Qlt; lia).
  change (inject_Z 0) with 0%Q in HnQ.
  assert (1 <= inject_Z s / inject_Z n <= 3)%Q as [Hlo' Hhi'].
  { split.
    - apply Qle_shift_div_l; [done|]. rewrite Qmult_1_l.
      rewrite <- Zle_Qle. done.
    - apply Qle_shift_div_r; [done|].
      change 3%Q with (inject_Z 3).
      rewrite <- inject_Z_mult, <- Zle_Qle. done. }
  split.
  - change 1%Q with (to_double 1). by apply to_double_monotone.
  - change 3%Q with (to_double 3). by apply to_double_monotone.
Qed.

Global Instance desc_order_total : Total desc_order.
Proof.
  intros [k1 [x|]] [k2 [y|]]; unfold desc_order; simpl; auto.
  rewrite !Qle_bool_iff. destruct (Qlt_le_dec x y) as [H|H]; auto.
  right. by apply Qlt_le_weak.
Qed.

Global Instance desc_order_trans : Transitive desc_order.
Proof.
  intros [k1 [x|]] [k2 [y|]] [k3 [z|]]; unfold desc_order; simpl; try done.
  rewrite !Qle_bool_iff. intros H1 H2. by eapply Qle_trans.
Qed.

Section Aggregator.

Variable arrange : list ResultRow -> list ResultRow.
Hypothesis arrange_perm : forall l, arrange l ≡ₚ l.

Lemma compare_engagement_levels_perm (df : list Row) :
  compare_engagement_levels arrange df
  ≡ₚ (fun k => mkResult k (mean (job_title_values df k)))
       <$> distinct_job_titles df.
Proof.
  unfold compare_engagement_levels, order_by_desc.
  rewrite merge_sort_Permutation, arrange_perm.
  by rewrite group_by_avg_convert.
Qed.

Lemma elem_of_compare_engagement_levels (df : list Row) (r : ResultRow) :
  r ∈ compare_engagement_levels arrange df <->
  ResultJobTitle r ∈ JobTitle <$> df /\
  AvgEngagementLevel r = mean (job_title_values df (ResultJobTitle r)).
Proof.
  rewrite compare_engagement_levels_perm, list_elem_of_fmap.
  unfold distinct_job_titles. split.
  - intros (k & -> & Hk). rewrite elem_of_remove_dups in Hk. by simpl.
  - intros [Hk Havg]. exists (ResultJobTitle r).
    rewrite elem_of_remove_dups. split; [|done].
    destruct r as [k a]. simpl in *. by subst.
Qed.

Lemma result_job_titles_perm (df : list Row) :
  ResultJobTitle <$> compare_engagement_levels arrange df
  ≡ₚ distinct_job_titles df.
Proof.
  rewrite compare_engagement_levels_perm.
  rewrite <- list_fmap_compose. simpl.
  by rewrite list_fmap_id.
Qed.

(** C2, as the code has it. For every job title in the output,
    AvgEngagementLevel is the double nearest to the arithmetic mean of
    the numeric values (each 1, 2 or 3) of exactly the input rows with
    that job title whose EngagementLevel maps to a present value; rows
    with an absent value enter neither the sum nor the count.  It is a
    double, no double is nearer to the mean, it is the mean when the
    mean is a double, and it is within a relative error of 2^-53 of the
    mean.  With no such row it is absent. *)
Theorem avg_engagement_is_group_mean (df : list Row) (r : ResultRow) :
  r ∈ compare_engagement_levels arrange df ->
  let values := job_title_values df (ResultJobTitle r) in
  Forall (fun n => n = 1 \/ n = 2 \/ n = 3) values /\
  match AvgEngagementLevel r with
  | Some q =>
      values <> [] /\
      is_double q /\
      (forall f, is_double f ->
         (Qabs (arithmetic_mean values - q)
          <= Qabs (arithmetic_mean values - f))%Q) /\
      (is_double (arithmetic_mean values) -> (q == arithmetic_mean values)%Q) /\
      (Qabs (arithmetic_mean values - q)
       <= Qabs (arithmetic_mean values) * (1 # 2 ^ 53))%Q
  | None => values = []
  end.
Proof.
  intros [_ Havg]%elem_of_compare_engagement_levels values. split.
  - eapply Forall_impl; [apply job_title_values_range|].
    intros n Hn. simpl in Hn. lia.
  - destruct (AvgEngagementLevel r) as [q|].
    + symmetry in Havg. apply mean_Some in Havg as [Hne ->].
      split_and!; [done|..].
      * apply to_double_is_double.
      * intros f Hf. by apply to_double_nearest.
      * apply to_double_exact.
      * apply to_double_error.
    + by apply mean_None.
Qed.

(** C3, as the code has it. The result has one row for each distinct
    JobTitle value of the input, whether or not any of its rows has a
    present numeric value; a job title of the input none of whose rows
    has a present numeric value has its row in the result, with an
    absent AvgEngagementLevel. *)
Theorem result_row_count (df : list Row) :
  length (compare_engagement_levels arrange df)
  = length (distinct_job_titles df) /\
  (forall k, k ∈ JobTitle <$> df -> job_title_values df k = [] ->
     mkResult k None ∈ compare_engagement_levels arrange df).
Proof.
  split.
  - rewrite <- (length_fmap ResultJobTitle).
    apply Permutation_length, result_job_titles_perm.
  - intros k Hk Hnone. apply elem_of_compare_engagement_levels.
    cbn [ResultJobTitle AvgEngagementLevel]. by rewrite Hnone.
Qed.

(** C4. The aggregator yields exactly one row per distinct JobTitle value
    of the input, and the row of a job title without any present numeric
    value has an absent AvgEngagementLevel, not zero. *)
Theorem one_row_per_job_title (df : list Row) :
  let result := compare_engagement_levels arrange df in
  NoDup (ResultJobTitle <$> result) /\
  (forall k, k ∈ ResultJobTitle <$> result <-> k ∈ JobTitle <$> df) /\
  (forall r, r ∈ result ->
     job_title_values df (ResultJobTitle r) = [] ->
     AvgEngagementLevel r = None /\ AvgEngagementLevel r <> Some 0%Q).
Proof.
  intros result. subst result. split_and!.
  - rewrite result_job_titles_perm. apply NoDup_remove_dups.
  - intros k. rewrite result_job_titles_perm.
    apply elem_of_remove_dups.
  - intros r [_ Havg]%elem_of_compare_engagement_levels Hnone.
    rewrite Havg, Hnone. done.
Qed.

(** C5. The result rows are in descending order of AvgEngagementLevel:
    no row is followed, at any distance, by a row with a greater value;
    absent values come last. *)
Theorem result_sorted_descending (df : list Row) :
  StronglySorted desc_order (compare_engagement_levels arrange df).
Proof.
  unfold compare_engagement_levels, order_by_desc.
  apply StronglySorted_merge_sort; apply _.
Qed.

(** C10. Every present AvgEngagementLevel of the result lies between 1
    and 3. *)
Theorem avg_engagement_within_scale (df : list Row) (r : ResultRow) (q : Q) :
  r ∈ compare_engagement_levels arrange df ->
  AvgEngagementLevel r = Some q ->
  (1 <= q <= 3)%Q.
Proof.
  intros [_ Havg]%elem_of_compare_engagement_levels Hq.
  rewrite Havg in Hq. eapply mean_bounds; [|done].
  apply job_title_values_range.
Qed.

End Aggregator.

Lemma keep_order_perm (l : list ResultRow) : keep_order l ≡ₚ l.
Proof. done. Qed.

Ltac in_list :=
  vm_compute;
  repeat first [ apply list_elem_of_here | apply list_elem_of_further ].

(** C2, as stated, fails: the three rows of Ops have the values 3, 3
    and 2, whose arithmetic mean 8/3 no double holds; the average in the
    result is the double next to it. *)
Lemma avg_engagement_is_group_mean_counterexample :
  let q := (6004799503160661 # 2251799813685248)%Q in
  let values := [3; 3; 2] in
  mkResult (Some "Ops") (Some q)
  ∈ compare_engagement_levels keep_order sample_table /\
  job_title_values sample_table (Some "Ops") = values /\
  (arithmetic_mean values == 8 # 3)%Q /\
  ~ (q == arithmetic_mean values)%Q.
Proof.
  split_and!.
  - in_list.
  - reflexivity.
  - reflexivity.
  - by vm_compute.
Qed.

Lemma avg_engagement_is_group_mean_witness :
  let q := (6004799503160661 # 2251799813685248)%Q in
  let r := mkResult (Some "Ops") (Some q) in
  let values := job_title_values sample_table (Some "Ops") in
  r ∈ compare_engagement_levels keep_order sample_table /\
  Forall (fun n => n = 1 \/ n = 2 \/ n = 3) values /\
  values <> [] /\
  is_double q /\
  (forall f, is_double f ->
     (Qabs (arithmetic_mean values - q)
      <= Qabs (arithmetic_mean values - f))%Q) /\
  (is_double (arithmetic_mean values) -> (q == arithmetic_mean values)%Q) /\
  (Qabs (arithmetic_mean values - q)
   <= Qabs (arithmetic_mean values) * (1 # 2 ^ 53))%Q.
Proof.
  intros q r values.
  assert (r ∈ compare_engagement_levels keep_order sample_table) as Hin
    by in_list.
  split; [exact Hin|].
  exact (avg_engagement_is_group_mean keep_order keep_order_perm
           sample_table r Hin).
Defined.

(** C3, as stated, fails: a job title whose rows all have an unrecognised
    EngagementLevel still has its row in the result. *)
Lemma result_row_count_counterexample :
  length (compare_engagement_levels keep_order unknown_only_table)
  <> length (job_titles_with_value unknown_only_table) /\
  job_title_values unknown_only_table (Some "QA") = [] /\
  Some "QA" ∈ ResultJobTitle <$>
              compare_engagement_levels keep_order unknown_only_table.
Proof.
  split_and!.
  - vm_compute. lia.
  - reflexivity.
  - in_list.
Qed.

Lemma result_row_count_witness :
  Some "QA" ∈ JobTitle <$> unknown_only_table /\
  job_title_values unknown_only_table (Some "QA") = [] /\
  length (compare_engagement_levels keep_order unknown_only_table) = 1%nat /\
  mkResult (Some "QA") None
  ∈ compare_engagement_levels keep_order unknown_only_table.
Proof.
  assert (Some "QA" ∈ JobTitle <$> unknown_only_table) as Hin by in_list.
  assert (job_title_values unknown_only_table (Some "QA") = []) as Hnone
    by reflexivity.
  destruct (result_row_count keep_order keep_order_perm unknown_only_table)
    as [Hcount Hrow].
  split; [exact Hin|]. split; [exact Hnone|]. split.
  - rewrite Hcount. reflexivity.
  - exact (Hrow (Some "QA") Hin Hnone).
Defined.

Lemma one_row_per_job_title_witness :
  let r := mkResult (Some "QA") None in
  r ∈ compare_engagement_levels keep_order unknown_only_table /\
  job_title_values unknown_only_table (ResultJobTitle r) = [] /\
  AvgEngagementLevel r = None /\ AvgEngagementLevel r <> Some 0%Q.
Proof.
  intros r.
  assert (r ∈ compare_engagement_levels keep_order unknown_only_table) as Hin
    by in_list.
  assert (job_title_values unknown_only_table (ResultJobTitle r) = [])
    as Hnone by reflexivity.
  split; [exact Hin|]. split; [exact Hnone|].
  exact (proj2 (proj2 (one_row_per_job_title keep_order keep_order_perm
                         unknown_only_table)) r Hin Hnone).
Defined.

Lemma avg_engagement_within_scale_witness :
  let q := (6004799503160661 # 2251799813685248)%Q in
  let r := mkResult (Some "Ops") (Some q) in
  r ∈ compare_engagement_levels keep_order sample_table /\
  (1 <= q <= 3)%Q.
Proof.
  intros q r.
  assert (r ∈ compare_engagement_levels keep_order sample_table) as Hin
    by in_list.
  split; [exact Hin|].
  exact (avg_engagement_within_scale keep_order keep_order_perm
           sample_table r q Hin eq_refl).
Defined.

(** ** File system *)

Lemma relative_to_Some (p k t : list string) :
  relative_to p k = Some t <-> k = p ++ t.
Proof.
  revert k. induction p as [|x p IH]; intros k; simpl.
  - split; [by intros [= ->] | by intros ->].
  - destruct k as [|y k]; [done|]. case_decide as Hxy.
    + subst. rewrite IH. split; [by intros -> | by intros [= ->]].
    + split; [done | by intros [= -> _]].
Qed.

Lemma relative_to_None (p k : list string) :
  relative_to p k = None <-> ~ p `prefix_of` k.
Proof.
  split.
  - intros Hnone [t ->]. by rewrite (proj2 (relative_to_Some p _ t)) in Hnone.
  - intros Hnot. destruct (relative_to p k) as [t|] eqn:Hrel; [|done].
    apply relative_to_Some in Hrel. destruct Hnot. by exists t.
Qed.

Lemma relative_to_self (p : list string) : relative_to p p = Some [].
Proof. apply relative_to_Some. by rewrite app_nil_r. Qed.

Lemma relative_to_child (p : list string) (name : string) :
  relative_to p (p ++ [name]) = Some [name].
Proof. by apply relative_to_Some. Qed.

Lemma delete_tree_lookup (p : list string) (m : gmap (list string) node)
    (k : list string) :
  delete_tree p m !! k = if decide (p `prefix_of` k) then None else m !! k.
Proof.
  unfold delete_tree. rewrite map_lookup_filter.
  destruct (m !! k) as [x|]; simpl; [|by case_decide].
  case_guard; case_decide; simpl in *; done.
Qed.

Lemma add_files_lookup (p : list string) (files : list (string * string))
    (m : gmap (list string) node) (k : list string) :
  add_files p files m !! k
  = match relative_to p k with
    | Some [name] =>
        match file_node name files with
        | Some v => Some v
        | None => m !! k
        end
    | _ => m !! k
    end.
Proof.
  induction files as [|[n c] files IH]; simpl.
  - by destruct (relative_to p k) as [[|? [|]]|].
  - destruct (decide (k = p ++ [n])) as [->|Hk].
    { rewrite lookup_insert_eq, relative_to_child.
      by rewrite decide_True. }
    rewrite lookup_insert_ne by done.
    destruct (decide (k = p ++ [checksum_name n])) as [->|Hk'].
    { rewrite lookup_insert_eq, relative_to_child.
      rewrite decide_False by congruence.
      by rewrite decide_True. }
    rewrite lookup_insert_ne by done. rewrite IH.
    destruct (relative_to p k) as [[|name [|]]|] eqn:Hrel; try done.
    apply relative_to_Some in Hrel.
    rewrite !decide_False by congruence. done.
Qed.

Lemma on_way_cons (base : list string) (c : string) (rest k : list string) :
  (exists t, t <> [] /\ t `prefix_of` c :: rest /\ k = base ++ t) <->
  k = base ++ [c] \/
  (exists t, t <> [] /\ t `prefix_of` rest /\ k = (base ++ [c]) ++ t).
Proof.
  split.
  - intros ([|x t] & Hne & Hpre & ->); [done|].
    pose proof (prefix_cons_inv_1 _ _ _ _ Hpre) as ->.
    apply prefix_cons_inv_2 in Hpre.
    destruct t as [|y t]; [by left|]. right.
    exists (y :: t). by rewrite <- app_assoc.
  - intros [->|(t & Hne & Hpre & ->)].
    + exists [c]. split_and!; [done| |done].
      apply prefix_cons, prefix_nil.
    + exists (c :: t). split_and!; [done| |by rewrite <- app_assoc].
      by apply prefix_cons.
Qed.

(** The directories made by [mkdirs_from] are those on the way; nothing
    else changes. *)
Lemma mkdirs_from_lookup (m m' : gmap (list string) node)
    (base todo k : list string) :
  mkdirs_from m base todo = Some m' ->
  let made := exists t, t <> [] /\ t `prefix_of` todo /\ k = base ++ t in
  (made -> m' !! k = Some Dir) /\ (~ made -> m' !! k = m !! k).
Proof.
  revert m base. induction todo as [|c rest IH]; intros m base; simpl.
  - intros [= <-]. split; [|done].
    intros (t & Hne & Hpre & _). by apply prefix_nil_inv in Hpre.
  - assert (~ exists t, t <> [] /\ t `prefix_of` rest /\
                        base ++ [c] = (base ++ [c]) ++ t) as Hself.
    { intros (t & Hne & _ & Heq). destruct Hne.
      apply (app_inv_head (base ++ [c])). by rewrite app_nil_r. }
    rewrite on_way_cons.
    destruct (m !! (base ++ [c])) as [[|content|content]|] eqn:Hc;
      [| done | done |];
      intros Hm'; destruct (IH _ _ Hm') as [Hmade Hkept]; split.
    + intros [->|Hrest]; [|by apply Hmade].
      by rewrite (proj2 (IH _ _ Hm')).
    + intros Hnot. apply Hkept. intros Hrest. apply Hnot. by right.
    + intros [->|Hrest]; [|by apply Hmade].
      rewrite (proj2 (IH _ _ Hm')) by done. apply lookup_insert_eq.
    + intros Hnot. rewrite Hkept by (intros Hrest; apply Hnot; by right).
      apply lookup_insert_ne. intros <-. apply Hnot. by left.
Qed.

(** [mkdirs_from] fails on an entry on the way that is not a directory,
    and only then. *)
Lemma mkdirs_from_is_Some (m : gmap (list string) node)
    (base todo : list string) :
  (forall t v, t <> [] -> t `prefix_of` todo ->
               m !! (base ++ t) = Some v -> v = Dir) ->
  is_Some (mkdirs_from m base todo).
Proof.
  revert m base. induction todo as [|c rest IH]; intros m base Hclear; simpl.
  - by eexists.
  - assert (forall t v, t <> [] -> t `prefix_of` rest ->
              m !! ((base ++ [c]) ++ t) = Some v -> v = Dir) as Hrest.
    { intros t v Hne Hpre. rewrite <- app_assoc.
      apply Hclear; [done|]. by apply prefix_cons. }
    assert ([c] `prefix_of` c :: rest) as Hc1
      by apply prefix_cons, prefix_nil.
    destruct (m !! (base ++ [c])) as [[|content|content]|] eqn:Hc.
    + by apply IH.
    + by specialize (Hclear [c] _ ltac:(done) Hc1 Hc).
    + by specialize (Hclear [c] _ ltac:(done) Hc1 Hc).
    + apply IH. intros t v Hne Hpre.
      rewrite lookup_insert_ne; [by apply Hrest|].
      intros Heq. destruct Hne. apply (app_inv_head (base ++ [c])).
      by rewrite app_nil_r.
Qed.

Lemma mkdirs_lookup (m m' : gmap (list string) node) (p k : list string) :
  mkdirs_from m [] p = Some m' ->
  m' !! k = if decide (on_way p k) then Some Dir else m !! k.
Proof.
  intros Hm'. destruct (mkdirs_from_lookup m m' [] p k Hm') as [Hmade Hkept].
  case_decide as Hway.
  - apply Hmade. destruct Hway as [Hne Hpre]. by exists k.
  - apply Hkept. intros (t & Hne & Hpre & ->). by apply Hway.
Qed.

Lemma mkdirs_is_Some (m : gmap (list string) node) (p : list string) :
  way_clear m p -> is_Some (mkdirs_from m [] p).
Proof.
  intros Hclear. apply mkdirs_from_is_Some.
  intros t v Hne Hpre. by apply Hclear.
Qed.

Lemma lookup_node_ne (m : gmap (list string) node) (p : list string) :
  p <> [] -> lookup_node m p = m !! p.
Proof. by destruct p. Qed.

Lemma on_way_parent (d : list string) (leaf : string) (k : list string) :
  on_way d k -> on_way (d ++ [leaf]) k.
Proof. intros [Hne Hpre]. split; [done|]. by apply prefix_app_r. Qed.

Lemma on_way_child (d : list string) (leaf : string) (k : list string) :
  on_way (d ++ [leaf]) k -> k = d ++ [leaf] \/ on_way d k.
Proof.
  intros [Hne [t Heq]].
  destruct (decide (t = [])) as [->|Ht]; [left; by rewrite app_nil_r in Heq|].
  right. split; [done|].
  destruct (exists_last Ht) as (t' & x & ->).
  rewrite app_assoc in Heq. apply app_inj_tail in Heq as [-> _].
  by exists t'.
Qed.

Lemma on_way_below (p t : list string) : on_way p (p ++ t) -> t = [].
Proof.
  intros [_ Hpre]. apply prefix_length in Hpre.
  rewrite length_app in Hpre. destruct t; simpl in *; [done|lia].
Qed.

Section Written.

Variables (d : list string) (leaf : string).
Variable files : list (string * string).

(** The two steps of the writer, on the file system alone. *)
Lemma written_after_steps (m m1 m3 : gmap (list string) node) :
  (if bool_decide (is_Some (lookup_node m d)) then Some m
   else mkdirs_from m [] d) = Some m1 ->
  mkdirs_from (delete_tree (d ++ [leaf]) m1) [] (d ++ [leaf]) = Some m3 ->
  written (d ++ [leaf]) files m (add_files (d ++ [leaf]) files m3).
Proof.
  intros Hm1 Hm3 k.
  assert (forall k, ~ on_way (d ++ [leaf]) k -> m1 !! k = m !! k) as Hkept.
  { intros k' Hk'. case_bool_decide; [by injection Hm1 as <-|].
    rewrite (mkdirs_lookup _ _ _ _ Hm1). rewrite decide_False; [done|].
    intros Hway. by apply Hk', on_way_parent. }
  rewrite add_files_lookup. unfold written_lookup.
  rewrite (mkdirs_lookup _ _ _ _ Hm3), delete_tree_lookup.
  destruct (relative_to (d ++ [leaf]) k) as [[|name [|? ?]]|] eqn:Hrel.
  - apply relative_to_Some in Hrel. rewrite app_nil_r in Hrel. subst k.
    rewrite decide_True; [done|]. split; [|done].
    by destruct d.
  - apply relative_to_Some in Hrel. subst k.
    destruct (file_node name files); [done|].
    rewrite decide_False, decide_True; [done|by exists [name]|].
    by intros ?%on_way_below.
  - apply relative_to_Some in Hrel. subst k.
    rewrite decide_False, decide_True; [done|by eexists|].
    by intros ?%on_way_below.
  - apply relative_to_None in Hrel.
    case_decide as Hway; [done|]. rewrite decide_False by done.
    by apply Hkept.
Qed.

(** A directory on the way cannot stop the first step once it was made. *)
Lemma second_step_after_first (m m1 : gmap (list string) node) :
  mkdirs_from m [] d = Some m1 ->
  is_Some (mkdirs_from (delete_tree (d ++ [leaf]) m1) [] (d ++ [leaf])).
Proof.
  intros Hm1. apply mkdirs_is_Some. intros k v Hway.
  rewrite delete_tree_lookup. case_decide as Hbelow; [done|].
  apply on_way_child in Hway as [->|Hway]; [by destruct Hbelow|].
  rewrite (mkdirs_lookup _ _ _ _ Hm1), decide_True by done. congruence.
Qed.

(** After a write, the next write finds its directories in place. *)
Lemma written_ready (m m' : gmap (list string) node) :
  written (d ++ [leaf]) files m m' ->
  bool_decide (is_Some (lookup_node m' d)) = true /\
  is_Some (mkdirs_from (delete_tree (d ++ [leaf]) m') [] (d ++ [leaf])).
Proof.
  intros Hw.
  assert (forall k, on_way (d ++ [leaf]) k ->
                    ~ (d ++ [leaf]) `prefix_of` k ->
                    m' !! k = Some Dir) as Hdirs.
  { intros k Hway Hpre. rewrite Hw. unfold written_lookup.
    apply relative_to_None in Hpre. rewrite Hpre. by rewrite decide_True. }
  split.
  - apply bool_decide_eq_true.
    destruct (decide (d = [])) as [Hd|Hd]; [rewrite Hd; by eexists|].
    rewrite lookup_node_ne by done. rewrite Hdirs; [by eexists| |].
    + split; [done|]. by exists [leaf].
    + intros Hpre%prefix_length.
      rewrite length_app in Hpre. simpl in Hpre. lia.
  - apply mkdirs_is_Some. intros k v Hway.
    rewrite delete_tree_lookup. case_decide; [done|].
    rewrite Hdirs by done. congruence.
Qed.

End Written.

Lemma written_unique (p : list string) (files : list (string * string))
    (m m1 m2 : gmap (list string) node) :
  written p files m m1 -> written p files m m2 -> m1 = m2.
Proof. intros H1 H2. apply map_eq. intros k. by rewrite H1, H2. Qed.

(** Writing over what an earlier job wrote leaves what writing over the
    original would have left. *)
Lemma written_twice (p : list string) (files1 files2 : list (string * string))
    (m m1 m2 : gmap (list string) node) :
  written p files1 m m1 -> written p files2 m1 m2 -> written p files2 m m2.
Proof.
  intros H1 H2 k. rewrite H2. unfold written_lookup.
  destruct (relative_to p k) as [[|name [|? ?]]|] eqn:Hrel; try done.
  case_decide as Hway; [done|]. rewrite H1. unfold written_lookup.
  by rewrite Hrel, decide_False.
Qed.

Section Driver.

Variable arrange : list ResultRow -> list ResultRow.
Variable read_csv : gmap (list string) node -> list string -> option (list Row).
Hypothesis read_csv_local : forall m1 m2 p,
  (forall k, p `prefix_of` k -> m1 !! k = m2 !! k) ->
  read_csv m1 p = read_csv m2 p.
Variable partitioning : list ResultRow -> list (list ResultRow).
Hypothesis partitioning_concat : forall l, concat (partitioning l) = l.
Variable format_row : ResultRow -> string.
Variable show_string : list ResultRow -> string.

Lemma resolve_input_file (w : World) : resolve w input_file = input_file_path.
Proof. reflexivity. Qed.

Lemma resolve_output_file (w : World) : resolve w output_file = output_file_path.
Proof. reflexivity. Qed.

Lemma resolve_output_dir (w : World) :
  resolve w (dirname output_file) = output_dir_path.
Proof. reflexivity. Qed.

Lemma output_dir_not_empty : is_empty (dirname output_file) = false.
Proof. reflexivity. Qed.

Lemma load_data_run (file_path : string) (w : World) :
  load_data read_csv file_path w
  = let w' := log_call "load_data" w in
    if os_path_exists file_path w then
      match read_csv (fs w) (resolve w file_path) with
      | Some df => (inr df, w')
      | None => (inl EngineError, w')
      end
    else
      (inl (FileNotFoundError
              ("File not found: " +:+ file_path +:+
               ". Please check the file path.")), w').
Proof.
  unfold load_data, mbind, M_bind, called, get_world. simpl.
  change (os_path_exists file_path (log_call "load_data" w))
    with (os_path_exists file_path w).
  destruct (os_path_exists file_path w); simpl; [|done].
  change (resolve (log_call "load_data" w) file_path) with (resolve w file_path).
  by destruct (read_csv (fs w) (resolve w file_path)).
Qed.

Lemma write_output_run (rows : list ResultRow) (path uuid : string)
    (w : World) (d : list string) (leaf : string) :
  is_empty (dirname path) = false ->
  resolve w (dirname path) = d ->
  resolve w path = d ++ [leaf] ->
  write_output partitioning format_row rows path uuid w
  = let w' := log_call "write_output" w in
    match (if bool_decide (is_Some (lookup_node (fs w) d)) then Some (fs w)
           else mkdirs_from (fs w) [] d) with
    | None => (inl NotADirectoryError, w')
    | Some m1 =>
        match mkdirs_from (delete_tree (d ++ [leaf]) m1) [] (d ++ [leaf]) with
        | None => (inl EngineError, put_fs m1 w')
        | Some m3 =>
            (inr tt,
             put_fs (add_files (d ++ [leaf])
                       (written_files partitioning format_row uuid rows) m3) w')
        end
    end.
Proof.
  intros Hne Hd Hp.
  unfold write_output, mbind, M_bind, called, get_world. cbn beta iota.
  unfold os_path_exists. rewrite Hne.
  change (resolve (log_call "write_output" w) (dirname path))
    with (resolve w (dirname path)).
  change (fs (log_call "write_output" w)) with (fs w).
  rewrite Hd.
  destruct (bool_decide (is_Some (lookup_node (fs w) d))) eqn:Hex;
    cbn [negb].
  - unfold mret, M_ret, write_csv, mbind, M_bind, get_world. cbn beta iota.
    change (resolve (log_call "write_output" w) path) with (resolve w path).
    rewrite Hp. change (fs (log_call "write_output" w)) with (fs w).
    destruct (mkdirs_from _ [] (d ++ [leaf])); done.
  - unfold os_makedirs, mbind, M_bind, get_world. cbn beta iota.
    rewrite Hne.
    change (resolve (log_call "write_output" w) (dirname path))
      with (resolve w (dirname path)).
    change (fs (log_call "write_output" w)) with (fs w).
    rewrite Hd, Hex.
    destruct (mkdirs_from (fs w) [] d) as [m1|]; [|done].
    unfold set_fs, write_csv, mbind, M_bind, get_world. cbn beta iota.
    change (resolve (put_fs m1 (log_call "write_output" w)) path)
      with (resolve w path).
    rewrite Hp. change (fs (put_fs m1 (log_call "write_output" w))) with m1.
    destruct (mkdirs_from _ [] (d ++ [leaf])); done.
Qed.

Lemma initialize_spark_run (w : World) :
  initialize_spark w
  = (inr tt, put_spark true (log_call "initialize_spark" w)).
Proof. reflexivity. Qed.

Lemma input_file_exists (w : World) :
  os_path_exists input_file w = bool_decide (is_Some (fs w !! input_file_path)).
Proof. reflexivity. Qed.

Lemma main_run (uuid : string) (w : World) :
  main arrange read_csv partitioning format_row show_string uuid w
  = let w0 := log_call "load_data"
                (put_spark true (log_call "initialize_spark" w)) in
    if bool_decide (is_Some (fs w !! input_file_path)) then
      match read_csv (fs w) input_file_path with
      | None => (inl EngineError, w0)
      | Some df =>
          let rows := compare_engagement_levels arrange df in
          let w1 :=
            put_line (show show_string rows)
              (log_call "show"
                 (put_line "Engagement Level Comparison Across Job Titles:"
                    (log_call "compare_engagement_levels" w0))) in
          match write_output partitioning format_row rows output_file uuid w1
          with
          | (inl e, w2) => (inl e, w2)
          | (inr _, w2) =>
              (inr tt,
               put_spark false
                 (log_call "stop"
                    (put_line ("Results saved to " +:+ output_file) w2)))
          end
      end
    else
      (inr tt,
       put_spark false (log_call "stop" (put_line not_found_message w0))).
Proof.
  unfold main, mbind, M_bind, attempt.
  rewrite initialize_spark_run, load_data_run, input_file_exists.
  cbn zeta.
  change (fs (put_spark true (log_call "initialize_spark" w))) with (fs w).
  destruct (bool_decide (is_Some (fs w !! input_file_path))); [|done].
  rewrite resolve_input_file.
  destruct (read_csv (fs w) input_file_path) as [df|]; [|done].
  unfold called at 1, print at 1, called at 1, print at 1. cbn beta iota.
  destruct (write_output _ _ _ _ _ _) as [[e|[]] w2]; done.
Qed.

Lemma main_run_fs (uuid : string) (w : World) :
  fs (main arrange read_csv partitioning format_row show_string uuid w).2
  = main_fs arrange read_csv partitioning format_row uuid (fs w).
Proof.
  rewrite main_run. unfold main_fs, main_rows. cbn zeta.
  destruct (bool_decide (is_Some (fs w !! input_file_path))); [|done].
  destruct (read_csv (fs w) input_file_path) as [df|]; [|done].
  cbn [fmap option_fmap option_map].
  erewrite write_output_run;
    [|exact output_dir_not_empty|apply resolve_output_dir
     |apply resolve_output_file].
  cbn zeta.
  match goal with
  | |- context [fs ?w1] =>
      match w1 with
      | put_line _ _ => change (fs w1) with (fs w)
      end
  end.
  change (lookup_node (fs w) output_dir_path) with (fs w !! output_dir_path).
  destruct (if bool_decide (is_Some (fs w !! output_dir_path)) then _ else _)
    as [m1|]; [|done].
  change (output_dir_path ++ ["engagement_comparison.csv"]) with output_file_path.
  by destruct (mkdirs_from (delete_tree output_file_path m1) [] output_file_path).
Qed.


Lemma input_apart_from_output (k : list string) :
  input_file_path `prefix_of` k ->
  relative_to output_file_path k = None /\ ~ on_way output_file_path k.
Proof.
  assert (~ input_file_path `prefix_of` output_file_path) as Hio
    by (apply (bool_decide_eq_false_1 (input_file_path `prefix_of` output_file_path));
        vm_compute; reflexivity).
  assert (~ output_file_path `prefix_of` input_file_path) as Hoi
    by (apply (bool_decide_eq_false_1 (output_file_path `prefix_of` input_file_path));
        vm_compute; reflexivity).
  intros Hik. split.
  - apply relative_to_None. intros Hok.
    by destruct (prefix_weak_total _ _ _ Hik Hok).
  - intros [_ Hko]. apply Hio. by etrans.
Qed.

Lemma main_rows_written (files : list (string * string))
    (m m' : gmap (list string) node) :
  written output_file_path files m m' ->
  main_rows arrange read_csv m' = main_rows arrange read_csv m.
Proof.
  intros Hw.
  assert (forall k, input_file_path `prefix_of` k -> m' !! k = m !! k) as Hsame.
  { intros k [Hrel Hway]%input_apart_from_output.
    rewrite Hw. unfold written_lookup. by rewrite Hrel, decide_False. }
  unfold main_rows. rewrite (Hsame input_file_path) by done.
  by rewrite (read_csv_local m' m input_file_path Hsame).
Qed.

(** Either [main] leaves the file system alone, whatever the job, or it
    writes the result of the rows it computed. *)
Lemma main_fs_cases (m : gmap (list string) node) :
  (forall uuid,
     main_fs arrange read_csv partitioning format_row uuid m = m) \/
  (exists rows,
     main_rows arrange read_csv m = Some rows /\
     forall uuid,
       written output_file_path
         (written_files partitioning format_row uuid rows) m
         (main_fs arrange read_csv partitioning format_row uuid m)).
Proof.
  unfold main_fs.
  destruct (main_rows arrange read_csv m) as [rows|]; [|by left].
  destruct (if bool_decide _ then _ else _) as [m1|] eqn:Hm1; [|by left].
  destruct (mkdirs_from (delete_tree output_file_path m1) [] output_file_path)
    as [m3|] eqn:Hm3.
  - right. exists rows. split; [done|]. intros uuid.
    by eapply (written_after_steps output_dir_path).
  - left. intros _. case_bool_decide; [by injection Hm1|].
    apply (second_step_after_first output_dir_path
             "engagement_comparison.csv") in Hm1 as [m3 Hsome].
    unfold output_file_path in Hm3. congruence.
Qed.

Lemma main_fs_rerun (uuid1 uuid2 : string) (m : gmap (list string) node) :
  main_fs arrange read_csv partitioning format_row uuid2
    (main_fs arrange read_csv partitioning format_row uuid1 m)
  = main_fs arrange read_csv partitioning format_row uuid2 m.
Proof.
  destruct (main_fs_cases m) as [Hid|(rows & Hrows & Hw)];
    [by rewrite Hid|].
  pose proof (Hw uuid1) as Hw1.
  set (m1 := main_fs arrange read_csv partitioning format_row uuid1 m) in *.
  eapply written_unique; [|exact (Hw uuid2)].
  eapply written_twice; [exact Hw1|].
  destruct (written_ready output_dir_path "engagement_comparison.csv"
              _ _ _ Hw1) as [Hdir [m3 Hm3]].
  unfold main_fs. rewrite (main_rows_written _ _ _ Hw1), Hrows.
  change (m1 !! output_dir_path) with (lookup_node m1 output_dir_path).
  rewrite Hdir. fold output_file_path in Hm3. rewrite Hm3.
  apply (written_after_steps output_dir_path "engagement_comparison.csv"
           _ m1 m1 m3); [by rewrite Hdir | exact Hm3].
Qed.


(** The data files a job leaves: its one part file. *)
Lemma written_data_files (p : list string) (uuid : string)
    (rows : list ResultRow) (m m' : gmap (list string) node) :
  written p (written_files partitioning format_row uuid rows) m m' ->
  filter (fun kv => is_data_file p kv = true) m'
  = {[ p ++ [part_name uuid 0]
       := File (csv_text format_row true (concat (partitioning rows))) ]}.
Proof.
  intros Hw. apply map_eq. intros k. apply option_eq. intros x.
  rewrite map_lookup_filter_Some, lookup_singleton_Some, Hw.
  unfold written_lookup, is_data_file. simpl. split.
  - intros [Hlook Hdata]. destruct x as [|content|content]; [done| |done].
    destruct (relative_to p k) as [[|name [|? ?]]|] eqn:Hrel; try done.
    apply relative_to_Some in Hrel as ->.
    unfold written_files, file_node in Hlook.
    destruct (decide (success_marker = name)) as [<-|_]; [done|].
    destruct (decide (checksum_name success_marker = name)) as [<-|_];
      [done|].
    destruct (decide (part_name uuid 0 = name)) as [<-|_];
      [by injection Hlook as <-|].
    by destruct (decide (checksum_name (part_name uuid 0) = name)).
  - intros [<- <-]. rewrite relative_to_child.
    unfold written_files, file_node.
    rewrite !decide_False by (by vm_compute).
    by rewrite decide_True.
Qed.

Lemma written_output_contents (p : list string) (uuid : string)
    (rows : list ResultRow) (m m' : gmap (list string) node) :
  written p (written_files partitioning format_row uuid rows) m m' ->
  output_contents m' p
  = [File (csv_text format_row true (concat (partitioning rows)))].
Proof.
  intros Hw. unfold output_contents.
  by rewrite (written_data_files _ _ _ _ _ Hw), map_to_list_singleton.
Qed.

Lemma dirname_bare (path : string) :
  has_sep path = false -> dirname path = EmptyString.
Proof.
  intros Hsep. unfold dirname.
  assert (upto_last_sep path = EmptyString) as ->; [|done].
  destruct path as [|c rest]; [done|].
  cbn [upto_last_sep]. by rewrite Hsep.
Qed.


(** C6. The loader raises FileNotFoundError, with a message that carries
    the attempted path, exactly when the path does not exist.  When it
    is raised in [main], the driver prints the message, stops the
    session and returns (exit status 0); no later stage is called and
    the file system is as it was. *)
Theorem missing_input_file_handled (uuid : string) (w : World) :
  (forall file_path,
     (exists msg,
        (load_data read_csv file_path w).1 = inl (FileNotFoundError msg))
     <-> os_path_exists file_path w = false) /\
  (forall file_path msg,
     (load_data read_csv file_path w).1 = inl (FileNotFoundError msg) ->
     msg = "File not found: " +:+ file_path +:+
           ". Please check the file path.") /\
  (forall msg,
     (load_data read_csv input_file (initialize_spark w).2).1
     = inl (FileNotFoundError msg) ->
     let result :=
       main arrange read_csv partitioning format_row show_string uuid w in
     result.1 = inr tt /\
     exit_code result.1 = 0 /\
     stdout result.2 = stdout w ++ [msg] /\
     spark_active result.2 = false /\
     calls result.2 = calls w ++ ["initialize_spark"; "load_data"; "stop"] /\
     fs result.2 = fs w).
Proof.
  split_and!.
  - intros file_path. rewrite load_data_run. cbn zeta.
    destruct (os_path_exists file_path w).
    + split; [|done]. intros [msg Hmsg].
      by destruct (read_csv (fs w) (resolve w file_path)).
    + split; [done|]. intros _. by eexists.
  - intros file_path msg. rewrite load_data_run. cbn zeta.
    destruct (os_path_exists file_path w).
    + by destruct (read_csv (fs w) (resolve w file_path)).
    + by intros [= <-].
  - intros msg. rewrite initialize_spark_run, load_data_run, main_run.
    cbn zeta. rewrite input_file_exists.
    change (fs (put_spark true (log_call "initialize_spark" w)), fs w)
      with (fs w, fs w).
    change (fs (_, put_spark true (log_call "initialize_spark" w)).2)
      with (fs w).
    destruct (bool_decide (is_Some (fs w !! input_file_path))).
    + by destruct (read_csv (fs w) _).
    + intros [= <-]. simpl. by rewrite <- !app_assoc.
Qed.

(** C7, where the code departs from it. For an output path without a
    directory part, [os.path.dirname] is the empty string, which does not
    exist, and [os.makedirs] of the empty string raises: nothing is
    written. *)
Theorem write_output_bare_file_name (rows : list ResultRow)
    (path uuid : string) (w : World) :
  has_sep path = false ->
  write_output partitioning format_row rows path uuid w
  = (inl (FileNotFoundError "[Errno 2] No such file or directory: ''"),
     log_call "write_output" w).
Proof.
  intros Hsep. unfold write_output. rewrite (dirname_bare path Hsep).
  reflexivity.
Qed.

(** C8. Running [main] a second time leaves the file system that one run
    (of the second job) leaves, and the contents of the data files at the
    output path after two runs are those after one run. *)
Theorem rerun_same_output (uuid1 uuid2 : string) (w : World) :
  let run uuid w :=
    (main arrange read_csv partitioning format_row show_string uuid w).2 in
  fs (run uuid2 (run uuid1 w)) = fs (run uuid2 w) /\
  output_contents (fs (run uuid2 (run uuid1 w))) output_file_path
  = output_contents (fs (run uuid1 w)) output_file_path.
Proof.
  intros run. unfold run. rewrite !main_run_fs, main_fs_rerun.
  split; [done|].
  destruct (main_fs_cases (fs w)) as [Hid|(rows & _ & Hw)].
  - by rewrite !Hid.
  - by rewrite (written_output_contents _ _ _ _ _ (Hw uuid1)),
      (written_output_contents _ _ _ _ _ (Hw uuid2)).
Qed.

End Driver.

Lemma sample_reader_local (m1 m2 : gmap (list string) node) (p : list string) :
  (forall k, p `prefix_of` k -> m1 !! k = m2 !! k) ->
  sample_reader m1 p = sample_reader m2 p.
Proof. intros Hsame. unfold sample_reader. by rewrite (Hsame p). Qed.

Lemma missing_input_file_handled_witness :
  (load_data sample_reader input_file (initialize_spark empty_world).2).1
  = inl (FileNotFoundError not_found_message) /\
  let result :=
    main keep_order sample_reader one_partition sample_format sample_show
      "job-1" empty_world in
  result.1 = inr tt /\
  exit_code result.1 = 0 /\
  stdout result.2 = [not_found_message] /\
  spark_active result.2 = false /\
  calls result.2 = ["initialize_spark"; "load_data"; "stop"] /\
  fs result.2 = ∅.
Proof.
  assert ((load_data sample_reader input_file
             (initialize_spark empty_world).2).1
          = inl (FileNotFoundError not_found_message)) as Hraised
    by (vm_compute; reflexivity).
  split; [exact Hraised|].
  exact (proj2 (proj2 (missing_input_file_handled keep_order sample_reader
                         one_partition sample_format sample_show
                         "job-1" empty_world))
           not_found_message Hraised).
Defined.

Lemma write_output_bare_file_name_witness :
  has_sep "engagement_comparison.csv" = false /\
  write_output one_partition sample_format [] "engagement_comparison.csv"
    "job-1" sample_world
  = (inl (FileNotFoundError "[Errno 2] No such file or directory: ''"),
     log_call "write_output" sample_world).
Proof.
  assert (has_sep "engagement_comparison.csv" = false) as Hbare
    by reflexivity.
  split; [exact Hbare|].
  exact (write_output_bare_file_name one_partition sample_format []
           "engagement_comparison.csv" "job-1" sample_world Hbare).
Defined.

Lemma rerun_same_output_witness :
  let run uuid w :=
    (main keep_order sample_reader one_partition sample_format sample_show
       uuid w).2 in
  fs (run "job-2" (run "job-1" sample_world)) = fs (run "job-2" sample_world) /\
  output_contents (fs (run "job-2" (run "job-1" sample_world))) output_file_path
  = output_contents (fs (run "job-1" sample_world)) output_file_path.
Proof.
  exact (rerun_same_output keep_order sample_reader sample_reader_local
           one_partition sample_format sample_show
           "job-1" "job-2" sample_world).
Defined.

(** ** Evaluations *)

Example engagement_numeric_examples :
  engagement_numeric (Some "Low") = Some 1 /\
  engagement_numeric (Some "Medium") = Some 2 /\
  engagement_numeric (Some "High") = Some 3 /\
  engagement_numeric (Some "low") = None /\
  engagement_numeric (Some "High ") = None /\
  engagement_numeric (Some "Unknown") = None /\
  engagement_numeric None = None.
Proof. by vm_compute. Qed.

Example example_table_result :
  compare_engagement_levels keep_order example_table
  = [ mkResult (Some "SWE") (Some 2%Q); mkResult (Some "PM") (Some 2%Q) ] /\
  compare_engagement_levels reverse example_table
  = [ mkResult (Some "PM") (Some 2%Q); mkResult (Some "SWE") (Some 2%Q) ].
Proof. by vm_compute. Qed.

Example sample_table_result :
  compare_engagement_levels keep_order sample_table
  = [ mkResult (Some "Ops") (Some (6004799503160661 # 2251799813685248));
      mkResult (Some "SWE") (Some 2%Q);
      mkResult (Some "PM") (Some 2%Q); mkResult (Some "QA") None ].
Proof. by vm_compute. Qed.

(** The save mode matters: appending keeps the part file of the earlier
    job, overwriting does not. *)
Example save_mode_matters :
  let twice mode :=
    (write_csv sample_format [[]] "/out" true mode "job-2"
       (write_csv sample_format [[]] "/out" true mode "job-1"
          empty_world).2).2 in
  length (output_contents (fs (twice Append)) ["out"]) = 2%nat /\
  length (output_contents (fs (twice Overwrite)) ["out"]) = 1%nat.
Proof. by vm_compute. Qed.

(** The sample run, evaluated. *)
Example sample_run_output :
  output_contents
    (fs (main keep_order sample_reader one_partition sample_format sample_show
           "job-1" sample_world).2)
    output_file_path
  = [File (header_line +:+ newline +:+
           "Ops,6004799503160661/2251799813685248" +:+ newline +:+
           "SWE,2/1" +:+ newline +:+
           "PM,2/1" +:+ newline +:+ "QA," +:+ newline)].
Proof. vm_compute. reflexivity. Qed.

Example dirname_examples :
  dirname output_file
  = "/workspaces/spark-structured-api-employee-engagement-analysis-bhanukocherla/outputs/task3"
  /\ dirname "/results.csv" = "/"
  /\ dirname "out/results.csv" = "out"
  /\ dirname "results.csv" = EmptyString.
Proof. by vm_compute. Qed.

(** Roundings: 8/3, 1/3 and 1/10 are no doubles, 2 and 3/4 are. *)
Example to_double_examples :
  to_double (8 # 3) = (6004799503160661 # 2251799813685248)%Q /\
  to_double (1 # 3) = (6004799503160661 # 18014398509481984)%Q /\
  to_double (1 # 10) = (3602879701896397 # 36028797018963968)%Q /\
  to_double 2 = 2%Q /\
  to_double (3 # 4) = (3 # 4)%Q /\
  to_double (- (8 # 3)) = (- (6004799503160661 # 2251799813685248))%Q.
Proof. by vm_compute. Qed.

(** What the sample run leaves at the output path. *)
Example sample_run_entries :
  let m :=
    fs (main keep_order sample_reader one_partition sample_format sample_show
          "job-1" sample_world).2 in
  m !! output_file_path = Some Dir /\
  m !! (output_file_path ++ ["_SUCCESS"]) = Some (File EmptyString) /\
  m !! (output_file_path ++ ["._SUCCESS.crc"])
  = Some (ChecksumFile EmptyString) /\
  is_Some (m !! (output_file_path ++ ["part-00000-job-1-c000.csv"])) /\
  is_Some (m !! (output_file_path ++ [".part-00000-job-1-c000.csv.crc"])) /\
  m !! output_dir_path = Some Dir.
Proof.
  split_and!; try (vm_compute; reflexivity); eexists; vm_compute; reflexivity.
Qed.

(** [show] says so when it leaves rows out. *)
Example show_examples :
  let row := mkResult (Some "SWE") (Some 2%Q) in
  show sample_show (replicate 20 row) = sample_show (replicate 20 row) /\
  show sample_show (replicate 21 row)
  = sample_show (replicate 20 row) +:+ "only showing top 20 rows" +:+ newline.
Proof. by vm_compute. Qed.

(** * Further properties *)

(** ** Aggregator: what the result does not depend on *)

Lemma sum_Z_Permutation (xs ys : list Z) : xs ≡ₚ ys -> sum_Z xs = sum_Z ys.
Proof.
  unfold sum_Z. induction 1 as [|x xs ys _ IH|x y xs|xs ys zs _ IH1 _ IH2];
    simpl; lia.
Qed.

Lemma mean_Permutation (xs ys : list Z) : xs ≡ₚ ys -> mean xs = mean ys.
Proof.
  intros Hperm. destruct xs as [|x xs], ys as [|y ys].
  - done.
  - by apply Permutation_nil_l in Hperm.
  - by apply Permutation_nil_r in Hperm.
  - unfold mean. by rewrite (sum_Z_Permutation _ _ Hperm), Hperm.
Qed.

Lemma job_title_values_Permutation (df df' : list Row) (k : option string) :
  df ≡ₚ df' -> job_title_values df k ≡ₚ job_title_values df' k.
Proof. intros Hperm. unfold job_title_values. by rewrite Hperm. Qed.

Lemma distinct_job_titles_Permutation (df df' : list Row) :
  df ≡ₚ df' -> distinct_job_titles df ≡ₚ distinct_job_titles df'.
Proof.
  intros Hperm. unfold distinct_job_titles.
  apply NoDup_Permutation; [apply NoDup_remove_dups..|].
  intros k. by rewrite !elem_of_remove_dups, Hperm.
Qed.

(** A mean is a fraction in lowest terms. *)
Lemma mean_canonical (xs : list Z) (q : Q) : mean xs = Some q -> Qred q = q.
Proof.
  destruct xs as [|x xs]; [done|]. intros [= <-]. apply to_double_canonical.
Qed.

Lemma avg_ge_antisym (a b : option Q) :
  (forall q, a = Some q -> Qred q = q) ->
  (forall q, b = Some q -> Qred q = q) ->
  avg_ge a b = true -> avg_ge b a = true -> a = b.
Proof.
  destruct a as [x|], b as [y|]; simpl; try done.
  intros Hx Hy Hyx%Qle_bool_iff Hxy%Qle_bool_iff. f_equal.
  rewrite <- (Hx x), <- (Hy y) by done.
  apply Qred_complete. by apply Qle_antisym.
Qed.

Section AggregatorInvariance.

Variables arrange1 arrange2 : list ResultRow -> list ResultRow.
Hypothesis arrange1_perm : forall l, arrange1 l ≡ₚ l.
Hypothesis arrange2_perm : forall l, arrange2 l ≡ₚ l.

(** X1. The rows of the result depend neither on the order of the input
    rows nor on the order in which the engine delivers the groups: two
    runs over the same rows give the same result rows, up to their
    order. *)
Theorem result_rows_order_independent (df df' : list Row) :
  df ≡ₚ df' ->
  compare_engagement_levels arrange1 df
  ≡ₚ compare_engagement_levels arrange2 df'.
Proof.
  intros Hperm.
  rewrite (compare_engagement_levels_perm arrange1 arrange1_perm),
    (compare_engagement_levels_perm arrange2 arrange2_perm).
  rewrite (distinct_job_titles_Permutation _ _ Hperm).
  apply Permutation_refl'. apply list_fmap_ext. intros _ k _. f_equal.
  by apply mean_Permutation, job_title_values_Permutation.
Qed.

(** X2. The column of averages, read from the first result row to the
    last, is the same list whatever the order of the input rows and of the
    groups: ties can only exchange job titles, never change the sequence
    of values. *)
Theorem avg_column_order_independent (df df' : list Row) :
  df ≡ₚ df' ->
  AvgEngagementLevel <$> compare_engagement_levels arrange1 df
  = AvgEngagementLevel <$> compare_engagement_levels arrange2 df'.
Proof.
  intros Hperm.
  assert (forall arrange df,
    StronglySorted (fun a b => avg_ge a b = true)
      (AvgEngagementLevel <$> compare_engagement_levels arrange df))
    as Hsorted.
  { intros arrange df0.
    apply (StronglySorted_fmap _ desc_order); [done|].
    unfold compare_engagement_levels, order_by_desc.
    apply StronglySorted_merge_sort; apply _. }
  assert (forall arrange df a,
    (forall l, arrange l ≡ₚ l) ->
    a ∈ AvgEngagementLevel <$> compare_engagement_levels arrange df ->
    forall q, a = Some q -> Qred q = q) as Hcanon.
  { intros arrange df0 a Harr (r & -> & Hr)%list_elem_of_fmap q Hq.
    apply (elem_of_compare_engagement_levels arrange Harr) in Hr as [_ Hr].
    rewrite Hr in Hq. by eapply mean_canonical. }
  apply (StronglySorted_unique_strong (fun a b => avg_ge a b = true));
    [|apply Hsorted..|].
  - intros a b Ha Hb. apply avg_ge_antisym; eauto.
  - apply fmap_Permutation.
    rewrite (compare_engagement_levels_perm arrange1 arrange1_perm),
      (compare_engagement_levels_perm arrange2 arrange2_perm).
    rewrite (distinct_job_titles_Permutation _ _ Hperm).
    apply Permutation_refl'. apply list_fmap_ext. intros _ k _. f_equal.
    by apply mean_Permutation, job_title_values_Permutation.
Qed.

End AggregatorInvariance.

Lemma job_title_values_skip (df1 df2 : list Row) (r0 : Row) (k : option string) :
  engagement_mapping (EngagementLevel r0) = None ->
  job_title_values (df1 ++ r0 :: df2) k = job_title_values (df1 ++ df2) k.
Proof.
  intros Hnone. unfold job_title_values.
  rewrite !filter_app, filter_cons, !omap_app.
  case_decide; [|done]. simpl. by rewrite Hnone.
Qed.

Lemma job_title_values_absent (df : list Row) (k : option string) :
  k ∉ JobTitle <$> df -> job_title_values df k = [].
Proof.
  intros Hk. unfold job_title_values.
  replace (filter (fun r => JobTitle r = k) df) with (@nil Row); [done|].
  symmetry. induction df as [|r df IH]; [done|].
  rewrite fmap_cons, not_elem_of_cons in Hk. destruct Hk as [Hr Hk].
  rewrite filter_cons. case_decide; [congruence|]. by apply IH.
Qed.

Section AggregatorEdges.

Variable arrange : list ResultRow -> list ResultRow.
Hypothesis arrange_perm : forall l, arrange l ≡ₚ l.

(** X3. A row whose EngagementLevel is not one of the three levels changes
    no average: with it, the result has the rows it has without it, and at
    most one more, the row of that job title with an absent average, when
    no other row has that job title. *)
Theorem unrecognised_row_changes_no_average
    (df1 df2 : list Row) (r0 : Row) (r : ResultRow) :
  engagement_mapping (EngagementLevel r0) = None ->
  r ∈ compare_engagement_levels arrange (df1 ++ r0 :: df2) <->
  r ∈ compare_engagement_levels arrange (df1 ++ df2) \/
  (~ JobTitle r0 ∈ (JobTitle <$> (df1 ++ df2))) /\
  r = mkResult (JobTitle r0) None.
Proof.
  intros Hnone.
  rewrite !(elem_of_compare_engagement_levels arrange arrange_perm).
  rewrite (job_title_values_skip _ _ _ _ Hnone).
  assert (forall k, k ∈ (JobTitle <$> (df1 ++ r0 :: df2)) <->
                    k = JobTitle r0 \/ k ∈ (JobTitle <$> (df1 ++ df2)))
    as Htitles.
  { intros k. rewrite !fmap_app, fmap_cons, !elem_of_app, elem_of_cons.
    tauto. }
  rewrite Htitles. split.
  - intros [Hin Havg].
    destruct (decide (ResultJobTitle r ∈ (JobTitle <$> (df1 ++ df2))))
      as [Hold|Hnew]; [by left|right].
    destruct Hin as [Hk|Hold]; [|done]. rewrite <- Hk. split; [done|].
    rewrite job_title_values_absent in Havg by done.
    destruct r as [k a]. simpl in *. by subst.
  - intros [[Hin Havg]|[Hnew ->]]; [tauto|]. simpl. split; [by left|].
    by rewrite job_title_values_absent.
Qed.

(** X4. The result is empty exactly when the input table is. *)
Theorem empty_result_iff_empty_input (df : list Row) :
  compare_engagement_levels arrange df = [] <-> df = [].
Proof.
  split.
  - intros Hnil.
    pose proof (result_job_titles_perm arrange arrange_perm df) as Hperm.
    rewrite Hnil in Hperm. apply Permutation_nil_l in Hperm.
    destruct df as [|r df]; [done|].
    assert (JobTitle r ∈ distinct_job_titles (r :: df)) as Hin
      by (apply elem_of_remove_dups; left).
    rewrite <- Hperm in Hin. by apply elem_of_nil in Hin.
  - intros ->. apply Permutation_nil_r.
    by rewrite (compare_engagement_levels_perm arrange arrange_perm).
Qed.

End AggregatorEdges.

(** ** Aggregator: the effect of one more row *)

Lemma job_title_values_other (df1 df2 : list Row) (r0 : Row)
    (k : option string) :
  k <> JobTitle r0 ->
  job_title_values (df1 ++ r0 :: df2) k = job_title_values (df1 ++ df2) k.
Proof.
  intros Hk. unfold job_title_values.
  rewrite !filter_app, filter_cons. by rewrite decide_False by congruence.
Qed.

Lemma job_title_values_own (df1 df2 : list Row) (r0 : Row) (v : Z) :
  engagement_mapping (EngagementLevel r0) = Some v ->
  job_title_values (df1 ++ r0 :: df2) (JobTitle r0)
  ≡ₚ v :: job_title_values (df1 ++ df2) (JobTitle r0).
Proof.
  intros Hv. unfold job_title_values.
  rewrite !filter_app, filter_cons, decide_True by done.
  rewrite !omap_app. simpl. rewrite Hv.
  by rewrite Permutation_middle.
Qed.

(** Fractions of integers with positive denominators compare by cross
    multiplication. *)
Lemma Qle_fractions (a b c d : Z) :
  0 < b -> 0 < d ->
  (inject_Z a / inject_Z b <= inject_Z c / inject_Z d)%Q <-> a * d <= c * b.
Proof.
  intros Hb Hd. destruct b as [|b|b]; try lia. destruct d as [|d|d]; try lia.
  unfold Qle, Qdiv, Qmult, Qinv. simpl. rewrite ?Pos.mul_1_l. lia.
Qed.

Lemma Qle_fraction_l (a b c : Z) :
  0 < b -> (inject_Z a / inject_Z b <= inject_Z c)%Q <-> a <= c * b.
Proof.
  intros Hb. destruct b as [|b|b]; try lia.
  unfold Qle, Qdiv, Qmult, Qinv. simpl. rewrite ?Pos.mul_1_l. lia.
Qed.

Lemma Qle_fraction_r (a b c : Z) :
  0 < b -> (inject_Z c <= inject_Z a / inject_Z b)%Q <-> c * b <= a.
Proof.
  intros Hb. destruct b as [|b|b]; try lia.
  unfold Qle, Qdiv, Qmult, Qinv. simpl. rewrite ?Pos.mul_1_l. lia.
Qed.

Lemma mean_not_nil (xs : list Z) :
  xs <> [] -> mean xs = Some (to_double (arithmetic_mean xs)).
Proof. by destruct xs. Qed.

Lemma arithmetic_mean_cons_between (v : Z) (vs : list Z) :
  vs <> [] ->
  ((arithmetic_mean vs <= inject_Z v)%Q ->
   (arithmetic_mean vs <= arithmetic_mean (v :: vs) <= inject_Z v)%Q) /\
  ((inject_Z v <= arithmetic_mean vs)%Q ->
   (inject_Z v <= arithmetic_mean (v :: vs) <= arithmetic_mean vs)%Q).
Proof.
  intros Hne. unfold arithmetic_mean.
  replace (sum_Z (v :: vs)) with (v + sum_Z vs) by done.
  replace (Z.of_nat (length (v :: vs))) with (Z.of_nat (length vs) + 1)
    by (simpl length; lia).
  assert (0 < Z.of_nat (length vs)) as Hn by (destruct vs; [done|simpl; lia]).
  revert Hn. generalize (sum_Z vs), (Z.of_nat (length vs)). intros s n Hn.
  rewrite !Qle_fractions, !Qle_fraction_l, !Qle_fraction_r by lia.
  split; intros Hle; nia.
Qed.

(** The mean after one more value lies between the mean before and that
    value. *)
Lemma mean_cons_between (v : Z) (vs : list Z) (q : Q) :
  is_double (inject_Z v) ->
  mean vs = Some q ->
  exists q', mean (v :: vs) = Some q' /\
    ((q <= inject_Z v)%Q -> (q <= q' <= inject_Z v)%Q) /\
    ((inject_Z v <= q)%Q -> (inject_Z v <= q' <= q)%Q).
Proof.
  intros Hv Hq. destruct (decide (vs = [])) as [->|Hne]; [done|].
  rewrite (mean_not_nil vs Hne) in Hq. injection Hq as <-.
  rewrite (mean_not_nil (v :: vs)) by done. eexists. split; [done|].
  destruct (arithmetic_mean_cons_between v vs Hne) as [Hup Hdown].
  pose proof (to_double_exact _ Hv) as Hex.
  destruct (Qlt_le_dec (inject_Z v) (arithmetic_mean vs)) as [Hlt|Hle].
  - destruct (Hdown (Qlt_le_weak _ _ Hlt)) as [H1 H2].
    apply to_double_monotone in H1, H2. split; intros; lra.
  - destruct (Hup Hle) as [H1 H2].
    apply to_double_monotone in H1, H2. split; intros; lra.
Qed.

Section AggregatorOneMoreRow.

Variable arrange : list ResultRow -> list ResultRow.
Hypothesis arrange_perm : forall l, arrange l ≡ₚ l.

(** X13. A row bears on its own job title only: the result rows of the
    other job titles are the same with it and without it. *)
Theorem other_job_titles_unaffected
    (df1 df2 : list Row) (r0 : Row) (r : ResultRow) :
  ResultJobTitle r <> JobTitle r0 ->
  r ∈ compare_engagement_levels arrange (df1 ++ r0 :: df2) <->
  r ∈ compare_engagement_levels arrange (df1 ++ df2).
Proof.
  intros Hother.
  rewrite !(elem_of_compare_engagement_levels arrange arrange_perm).
  rewrite (job_title_values_other _ _ _ _ Hother).
  rewrite !fmap_app, fmap_cons, !elem_of_app, elem_of_cons. tauto.
Qed.

(** X14. One more row with a recognised level moves the average of its
    job title towards the number of that level, and not beyond it: the
    new average lies between the old average and that number. *)
Theorem new_rating_moves_average_towards_it
    (df1 df2 : list Row) (r0 : Row) (v : Z) (r r' : ResultRow) (q : Q) :
  engagement_mapping (EngagementLevel r0) = Some v ->
  r' ∈ compare_engagement_levels arrange (df1 ++ df2) ->
  ResultJobTitle r' = JobTitle r0 ->
  AvgEngagementLevel r' = Some q ->
  r ∈ compare_engagement_levels arrange (df1 ++ r0 :: df2) ->
  ResultJobTitle r = JobTitle r0 ->
  exists q', AvgEngagementLevel r = Some q' /\
    ((q <= inject_Z v)%Q -> (q <= q' <= inject_Z v)%Q) /\
    ((inject_Z v <= q)%Q -> (inject_Z v <= q' <= q)%Q).
Proof.
  intros Hv [_ Hold]%(elem_of_compare_engagement_levels arrange arrange_perm)
    Hk' Hq [_ Hnew]%(elem_of_compare_engagement_levels arrange arrange_perm)
    Hk.
  rewrite Hk' in Hold. rewrite Hk in Hnew. rewrite Hold in Hq.
  rewrite Hnew, (mean_Permutation _ _ (job_title_values_own _ _ _ _ Hv)).
  apply mean_cons_between; [|done].
  apply is_double_small. apply engagement_mapping_range in Hv. lia.
Qed.

End AggregatorOneMoreRow.

(** ** Writer and driver: errors and what is left alone *)

Lemma mkdirs_from_blocked (m : gmap (list string) node)
    (base todo t : list string) (content : string) :
  t <> [] -> t `prefix_of` todo ->
  m !! (base ++ t) = Some (File content) ->
  mkdirs_from m base todo = None.
Proof.
  revert m base t. induction todo as [|c rest IH]; intros m base t Hne Hpre Ht.
  { by apply prefix_nil_inv in Hpre. }
  destruct t as [|x t]; [done|].
  pose proof (prefix_cons_inv_1 _ _ _ _ Hpre) as ->.
  apply prefix_cons_inv_2 in Hpre. simpl.
  destruct (decide (t = [])) as [->|Hrest]; [by rewrite Ht|].
  rewrite (app_assoc base [c] t : base ++ c :: t = (base ++ [c]) ++ t) in Ht.
  destruct (m !! (base ++ [c])) as [[|content'|content']|] eqn:Hc;
    [|done|done|].
  - by apply (IH _ _ t).
  - apply (IH _ _ t); [done..|]. rewrite lookup_insert_ne; [done|].
    intros Heq. apply Hrest. apply (app_inv_head (base ++ [c])).
    by rewrite app_nil_r.
Qed.

Lemma mkdirs_blocked (m : gmap (list string) node) (p k : list string)
    (content : string) :
  on_way p k -> m !! k = Some (File content) -> mkdirs_from m [] p = None.
Proof. intros [Hne Hpre] Hk. by apply (mkdirs_from_blocked m [] p k content). Qed.

Lemma upto_last_sep_not_empty (path : string) :
  has_sep path = true -> is_empty (upto_last_sep path) = false.
Proof.
  destruct path as [|c rest]; [done|]. intros Hsep.
  cbn [upto_last_sep]. by rewrite Hsep.
Qed.

Lemma rstrip_sep_not_empty (s : string) :
  all_sep s = false -> is_empty (rstrip_sep s) = false.
Proof.
  destruct s as [|c rest]; [done|]. intros Hall.
  cbn [rstrip_sep]. by rewrite Hall.
Qed.

(** [dirname] is empty exactly for a path without a separator. *)
Lemma dirname_is_empty (path : string) :
  is_empty (dirname path) = negb (has_sep path).
Proof.
  destruct (has_sep path) eqn:Hsep; simpl.
  - unfold dirname. pose proof (upto_last_sep_not_empty path Hsep) as Hhead.
    rewrite Hhead. simpl.
    destruct (all_sep (upto_last_sep path)) eqn:Hall; simpl; [done|].
    by apply rstrip_sep_not_empty.
  - unfold dirname. destruct path as [|c rest]; [done|].
    cbn [upto_last_sep]. by rewrite Hsep.
Qed.

Section Writer.

Variable partitioning : list ResultRow -> list (list ResultRow).
Hypothesis partitioning_concat : forall l, concat (partitioning l) = l.
Variable format_row : ResultRow -> string.

(** The run of the writer for a path with a directory part. *)
Lemma write_output_outcome (rows : list ResultRow) (path uuid : string)
    (w : World) :
  has_sep path = true ->
  write_output partitioning format_row rows path uuid w
  = let w' := log_call "write_output" w in
    let d := resolve w (dirname path) in
    let p := resolve w path in
    match (if bool_decide (is_Some (lookup_node (fs w) d)) then Some (fs w)
           else mkdirs_from (fs w) [] d) with
    | None => (inl NotADirectoryError, w')
    | Some m1 =>
        match mkdirs_from (delete_tree p m1) [] p with
        | None => (inl EngineError, put_fs m1 w')
        | Some m3 =>
            (inr tt,
             put_fs (add_files p
                       (written_files partitioning format_row uuid rows) m3)
               w')
        end
    end.
Proof.
  intros Hsep.
  assert (is_empty (dirname path) = false) as Hne
    by (by rewrite dirname_is_empty, Hsep).
  unfold write_output, mbind, M_bind, called, get_world. cbn beta iota zeta.
  unfold os_path_exists. rewrite Hne.
  change (resolve (log_call "write_output" w) (dirname path))
    with (resolve w (dirname path)).
  change (fs (log_call "write_output" w)) with (fs w).
  destruct (bool_decide (is_Some (lookup_node (fs w)
                                    (resolve w (dirname path))))) eqn:Hex;
    cbn [negb].
  - unfold mret, M_ret, write_csv, mbind, M_bind, get_world. cbn beta iota.
    change (resolve (log_call "write_output" w) path) with (resolve w path).
    change (fs (log_call "write_output" w)) with (fs w).
    destruct (mkdirs_from _ [] (resolve w path)); done.
  - unfold os_makedirs, mbind, M_bind, get_world. cbn beta iota.
    rewrite Hne.
    change (resolve (log_call "write_output" w) (dirname path))
      with (resolve w (dirname path)).
    change (fs (log_call "write_output" w)) with (fs w).
    rewrite Hex.
    destruct (mkdirs_from (fs w) [] (resolve w (dirname path))) as [m1|];
      [|done].
    unfold set_fs, write_csv, mbind, M_bind, get_world. cbn beta iota.
    change (resolve (put_fs m1 (log_call "write_output" w)) path)
      with (resolve w path).
    change (fs (put_fs m1 (log_call "write_output" w))) with m1.
    destruct (mkdirs_from _ [] (resolve w path)); done.
Qed.




Lemma write_output_written (rows : list ResultRow) (path uuid : string)
    (w : World) (d : list string) (leaf : string) :
  has_sep path = true ->
  resolve w (dirname path) = d ->
  resolve w path = d ++ [leaf] ->
  way_clear (fs w) d ->
  exists m',
    write_output partitioning format_row rows path uuid w
    = (inr tt, put_fs m' (log_call "write_output" w)) /\
    written (d ++ [leaf]) (written_files partitioning format_row uuid rows)
      (fs w) m'.
Proof.
  intros Hsep Hd Hp Hclear.
  rewrite (write_output_outcome rows path uuid w Hsep). cbn zeta.
  rewrite Hd, Hp.
  destruct (if bool_decide _ then _ else _) as [m1|] eqn:Hm1.
  - assert (is_Some (mkdirs_from (delete_tree (d ++ [leaf]) m1) []
                       (d ++ [leaf]))) as [m3 Hm3].
    { case_bool_decide.
      - injection Hm1 as <-. apply mkdirs_is_Some. intros k v Hway.
        rewrite delete_tree_lookup. case_decide as Hpre; [done|].
        apply on_way_child in Hway as [->|Hway]; [by destruct Hpre|].
        by apply Hclear.
      - by eapply second_step_after_first. }
    rewrite Hm3. eexists. split; [done|].
    by eapply written_after_steps.
  - case_bool_decide; [done|].
    by destruct (mkdirs_is_Some (fs w) d Hclear) as [m1 Hsome];
      rewrite Hsome in Hm1.
Qed.

Lemma write_output_blocked (rows : list ResultRow) (path uuid : string)
    (w : World) (d : list string) (leaf : string) (k : list string)
    (content : string) :
  has_sep path = true ->
  resolve w (dirname path) = d ->
  resolve w path = d ++ [leaf] ->
  on_way d k -> fs w !! k = Some (File content) ->
  exists e,
    write_output partitioning format_row rows path uuid w
    = (inl e, log_call "write_output" w).
Proof.
  intros Hsep Hd Hp Hway Hk.
  rewrite (write_output_outcome rows path uuid w Hsep). cbn zeta.
  rewrite Hd, Hp. case_bool_decide.
  - rewrite (mkdirs_blocked _ (d ++ [leaf]) k content);
      [by eexists|by apply on_way_parent|].
    rewrite delete_tree_lookup, decide_False; [done|].
    intros Hbelow%prefix_length. destruct Hway as [_ Hpre%prefix_length].
    rewrite length_app in Hbelow. simpl in Hbelow. lia.
  - rewrite (mkdirs_blocked _ d k content) by done. by eexists.
Qed.


End Writer.

Section DriverOutcomes.

Variable arrange : list ResultRow -> list ResultRow.
Variable read_csv : gmap (list string) node -> list string -> option (list Row).
Variable partitioning : list ResultRow -> list (list ResultRow).
Hypothesis partitioning_concat : forall l, concat (partitioning l) = l.
Variable format_row : ResultRow -> string.
Variable show_string : list ResultRow -> string.

Lemma output_file_has_sep : has_sep output_file = true.
Proof. reflexivity. Qed.

(** X8. With the input in place, readable, and nothing but directories
    on the way to the output directory, [main] returns (exit status 0)
    with the session stopped, after calling its stages in order and
    printing the label, what [show] prints (the table of the first 20
    rows and, when there are more, the line that says so) and the
    confirmation with the output path; the data set at the output path
    is one CSV file: the header line, then the result rows. *)
Theorem main_success (uuid : string) (w : World) (df : list Row) :
  is_Some (fs w !! input_file_path) ->
  read_csv (fs w) input_file_path = Some df ->
  way_clear (fs w) output_dir_path ->
  let rows := compare_engagement_levels arrange df in
  let result :=
    main arrange read_csv partitioning format_row show_string uuid w in
  result.1 = inr tt /\
  exit_code result.1 = 0 /\
  stdout result.2
  = stdout w ++ [ "Engagement Level Comparison Across Job Titles:";
                  show_string (take 20 rows) +:+
                  (if bool_decide (20 < length rows)%nat
                   then "only showing top 20 rows" +:+ newline
                   else EmptyString);
                  "Results saved to " +:+ output_file ] /\
  spark_active result.2 = false /\
  calls result.2
  = calls w ++ [ "initialize_spark"; "load_data";
                 "compare_engagement_levels"; "show"; "write_output";
                 "stop" ] /\
  output_contents (fs result.2) output_file_path
  = [File (header_line +:+ newline +:+ csv_text format_row false rows)].
Proof.
  intros Hin Hread Hclear rows result. subst result.
  rewrite main_run. cbn zeta.
  rewrite bool_decide_eq_true_2 by done. rewrite Hread. fold rows.
  match goal with
  | |- context [write_output _ _ _ _ _ ?w1] =>
      destruct (write_output_written partitioning format_row rows
                  output_file uuid w1 output_dir_path
                  "engagement_comparison.csv" output_file_has_sep
                  (resolve_output_dir w1) (resolve_output_file w1) Hclear)
        as (m' & -> & Hw)
  end.
  cbn [fst snd]. split_and!; try done.
  - cbn. by rewrite <- !app_assoc.
  - cbn. by rewrite <- !app_assoc.
  - cbn [fs put_spark log_call put_line put_fs]. unfold output_file_path.
    by rewrite (written_output_contents _ _ _ _ _ _ _ Hw),
      partitioning_concat.
Qed.

(** X9. With a regular file where a directory on the way to the output
    directory should be, the exception of the writer escapes [main] (exit
    status 1): the label and what [show] prints (the table of the first
    20 rows and, when there are more, the line that says so) were
    printed, the confirmation is not, the session is still active and
    the file system is as it was. *)
Theorem main_output_blocked (uuid : string) (w : World) (df : list Row)
    (k : list string) (content : string) :
  is_Some (fs w !! input_file_path) ->
  read_csv (fs w) input_file_path = Some df ->
  on_way output_dir_path k ->
  fs w !! k = Some (File content) ->
  let rows := compare_engagement_levels arrange df in
  let result :=
    main arrange read_csv partitioning format_row show_string uuid w in
  (exists e, result.1 = inl e) /\
  exit_code result.1 = 1 /\
  stdout result.2
  = stdout w ++ [ "Engagement Level Comparison Across Job Titles:";
                  show_string (take 20 rows) +:+
                  (if bool_decide (20 < length rows)%nat
                   then "only showing top 20 rows" +:+ newline
                   else EmptyString) ] /\
  spark_active result.2 = true /\
  fs result.2 = fs w.
Proof.
  intros Hin Hread Hway Hk rows result. subst result.
  rewrite main_run. cbn zeta.
  rewrite bool_decide_eq_true_2 by done. rewrite Hread. fold rows.
  match goal with
  | |- context [write_output _ _ _ _ _ ?w1] =>
      destruct (write_output_blocked partitioning format_row rows
                  output_file uuid w1 output_dir_path
                  "engagement_comparison.csv" k content output_file_has_sep
                  (resolve_output_dir w1) (resolve_output_file w1) Hway Hk)
        as (e & ->)
  end.
  cbn [fst snd]. split_and!; try done; [by eexists|].
  cbn. by rewrite <- !app_assoc.
Qed.

(** X10. [main] catches FileNotFoundError only: when the engine fails to
    read an input that exists, the exception escapes (exit status 1), the
    session is still active and nothing is written. *)
Theorem main_read_failure (uuid : string) (w : World) :
  is_Some (fs w !! input_file_path) ->
  read_csv (fs w) input_file_path = None ->
  let result :=
    main arrange read_csv partitioning format_row show_string uuid w in
  result.1 = inl EngineError /\
  exit_code result.1 = 1 /\
  spark_active result.2 = true /\
  fs result.2 = fs w.
Proof.
  intros Hin Hread result. subst result.
  rewrite main_run. cbn zeta.
  rewrite bool_decide_eq_true_2 by done. by rewrite Hread.
Qed.

(** X11. The session is stopped at the end of [main] exactly when [main]
    returns: on the way out through an exception [spark.stop()] is not
    reached. *)
Theorem main_stops_session_iff_returns (uuid : string) (w : World) :
  let result :=
    main arrange read_csv partitioning format_row show_string uuid w in
  spark_active result.2 = false <-> result.1 = inr tt.
Proof.
  intros result. subst result. rewrite main_run. cbn zeta.
  case_bool_decide; [|done].
  destruct (read_csv (fs w) input_file_path) as [df|]; [|done].
  rewrite (write_output_outcome partitioning format_row _ _ _ _
             output_file_has_sep).
  cbn zeta.
  destruct (if bool_decide _ then _ else _) as [m1|]; [|done].
  by destruct (mkdirs_from _ [] _).
Qed.

(** X12. [main] changes nothing but the output path, what is below it and
    the directories on the way to it; in particular the input file, and
    anything below the input path, is as it was, on every way out. *)
Theorem main_touches_only_output (uuid : string) (w : World)
    (k : list string) :
  let result :=
    main arrange read_csv partitioning format_row show_string uuid w in
  (~ output_file_path `prefix_of` k -> ~ on_way output_file_path k ->
   fs result.2 !! k = fs w !! k) /\
  (input_file_path `prefix_of` k -> fs result.2 !! k = fs w !! k).
Proof.
  intros result. subst result. rewrite main_run_fs.
  assert (~ output_file_path `prefix_of` k -> ~ on_way output_file_path k ->
          main_fs arrange read_csv partitioning format_row uuid (fs w) !! k
          = fs w !! k) as Hframe.
  { intros Hbelow Hway.
    destruct (main_fs_cases arrange read_csv partitioning format_row (fs w))
      as [Hid|(rows & _ & Hw)]; [by rewrite Hid|].
    rewrite (Hw uuid). unfold written_lookup.
    apply relative_to_None in Hbelow. by rewrite Hbelow, decide_False. }
  split; [done|].
  intros [Hrel Hway]%input_apart_from_output.
  apply Hframe; [by apply relative_to_None|done].
Qed.

End DriverOutcomes.

(** ** Instances of the further properties on the sample data *)

Lemma one_partition_concat (l : list ResultRow) : concat (one_partition l) = l.
Proof. apply app_nil_r. Qed.

Lemma reverse_perm (l : list ResultRow) : reverse l ≡ₚ l.
Proof. apply reverse_Permutation. Qed.

Lemma sample_world_clear : way_clear (fs sample_world) output_dir_path.
Proof.
  intros k v [Hne [t Ht]]. unfold output_dir_path in Ht.
  destruct k as [|a [|b [|c [|d [|e k]]]]]; simplify_eq/=;
    vm_compute; congruence.
Qed.



Lemma result_rows_order_independent_witness :
  sample_table ≡ₚ reverse sample_table /\
  compare_engagement_levels keep_order sample_table
  ≡ₚ compare_engagement_levels reverse (reverse sample_table).
Proof.
  assert (sample_table ≡ₚ reverse sample_table) as Hperm
    by (symmetry; apply reverse_Permutation).
  split; [exact Hperm|].
  exact (result_rows_order_independent keep_order reverse keep_order_perm
           reverse_perm sample_table (reverse sample_table) Hperm).
Defined.

Lemma avg_column_order_independent_witness :
  sample_table ≡ₚ reverse sample_table /\
  AvgEngagementLevel <$> compare_engagement_levels keep_order sample_table
  = AvgEngagementLevel <$>
      compare_engagement_levels reverse (reverse sample_table).
Proof.
  assert (sample_table ≡ₚ reverse sample_table) as Hperm
    by (symmetry; apply reverse_Permutation).
  split; [exact Hperm|].
  exact (avg_column_order_independent keep_order reverse keep_order_perm
           reverse_perm sample_table (reverse sample_table) Hperm).
Defined.

Lemma unrecognised_row_changes_no_average_witness :
  let r0 := employee 4 "QA" "Unknown" in
  let df1 := [employee 1 "SWE" "High"] in
  let df2 := [employee 2 "SWE" "Low"] in
  let r := mkResult (Some "SWE") (Some 2%Q) in
  engagement_mapping (EngagementLevel r0) = None /\
  (r ∈ compare_engagement_levels keep_order (df1 ++ r0 :: df2) <->
   r ∈ compare_engagement_levels keep_order (df1 ++ df2) \/
   (~ JobTitle r0 ∈ (JobTitle <$> (df1 ++ df2))) /\
   r = mkResult (JobTitle r0) None).
Proof.
  intros r0 df1 df2 r.
  assert (engagement_mapping (EngagementLevel r0) = None) as Hnone
    by reflexivity.
  split; [exact Hnone|].
  exact (unrecognised_row_changes_no_average keep_order keep_order_perm
           df1 df2 r0 r Hnone).
Defined.

Lemma empty_result_iff_empty_input_witness :
  compare_engagement_levels keep_order sample_table = [] <-> sample_table = [].
Proof.
  exact (empty_result_iff_empty_input keep_order keep_order_perm sample_table).
Defined.




Lemma main_success_witness :
  let rows := compare_engagement_levels keep_order sample_table in
  let result :=
    main keep_order sample_reader one_partition sample_format sample_show
      "job-1" sample_world in
  result.1 = inr tt /\
  exit_code result.1 = 0 /\
  stdout result.2
  = [ "Engagement Level Comparison Across Job Titles:";
      sample_show (take 20 rows) +:+
      (if bool_decide (20 < length rows)%nat
       then "only showing top 20 rows" +:+ newline
       else EmptyString);
      "Results saved to " +:+ output_file ] /\
  spark_active result.2 = false /\
  calls result.2
  = [ "initialize_spark"; "load_data"; "compare_engagement_levels";
      "show"; "write_output"; "stop" ] /\
  output_contents (fs result.2) output_file_path
  = [File (header_line +:+ newline +:+ csv_text sample_format false rows)].
Proof.
  apply (main_success keep_order sample_reader one_partition
           one_partition_concat sample_format sample_show "job-1"
           sample_world sample_table).
  - eexists. vm_compute. reflexivity.
  - by vm_compute.
  - apply sample_world_clear.
Defined.

Lemma main_output_blocked_witness :
  let rows := compare_engagement_levels keep_order sample_table in
  let result :=
    main keep_order sample_reader one_partition sample_format sample_show
      "job-1" blocked_world in
  (exists e, result.1 = inl e) /\
  exit_code result.1 = 1 /\
  stdout result.2
  = [ "Engagement Level Comparison Across Job Titles:";
      sample_show (take 20 rows) +:+
      (if bool_decide (20 < length rows)%nat
       then "only showing top 20 rows" +:+ newline
       else EmptyString) ] /\
  spark_active result.2 = true /\
  fs result.2 = fs blocked_world.
Proof.
  apply (main_output_blocked keep_order sample_reader one_partition
           sample_format sample_show "job-1" blocked_world sample_table
           ["workspaces"; repository; "outputs"] "notes").
  - eexists. vm_compute. reflexivity.
  - by vm_compute.
  - split; [done|]. by exists ["task3"].
  - by vm_compute.
Defined.

Lemma main_read_failure_witness :
  let result :=
    main keep_order sample_reader one_partition sample_format sample_show
      "job-1" unreadable_world in
  result.1 = inl EngineError /\
  exit_code result.1 = 1 /\
  spark_active result.2 = true /\
  fs result.2 = fs unreadable_world.
Proof.
  apply (main_read_failure keep_order sample_reader one_partition
           sample_format sample_show "job-1" unreadable_world).
  - eexists. vm_compute. reflexivity.
  - by vm_compute.
Defined.

Lemma main_touches_only_output_witness :
  fs (main keep_order sample_reader one_partition sample_format sample_show
        "job-1" sample_world).2 !! input_file_path
  = fs sample_world !! input_file_path.
Proof.
  apply (main_touches_only_output keep_order sample_reader one_partition
           sample_format sample_show "job-1" sample_world input_file_path).
  done.
Defined.

Lemma other_job_titles_unaffected_witness :
  let r0 := employee 5 "Ops" "High" in
  let df1 := [employee 1 "SWE" "High"] in
  let df2 := [employee 2 "SWE" "Low"] in
  let r := mkResult (Some "SWE") (Some 2%Q) in
  ResultJobTitle r <> JobTitle r0 /\
  (r ∈ compare_engagement_levels keep_order (df1 ++ r0 :: df2) <->
   r ∈ compare_engagement_levels keep_order (df1 ++ df2)).
Proof.
  intros r0 df1 df2 r.
  assert (ResultJobTitle r <> JobTitle r0) as Hother by done.
  split; [exact Hother|].
  exact (other_job_titles_unaffected keep_order keep_order_perm
           df1 df2 r0 r Hother).
Defined.

Lemma new_rating_moves_average_towards_it_witness :
  let r0 := employee 2 "SWE" "High" in
  let df2 := [employee 1 "SWE" "Low"] in
  exists q', AvgEngagementLevel (mkResult (Some "SWE") (Some 2%Q)) = Some q' /\
    ((1 <= inject_Z 3)%Q -> (1 <= q' <= inject_Z 3)%Q) /\
    ((inject_Z 3 <= 1)%Q -> (inject_Z 3 <= q' <= 1)%Q).
Proof.
  intros r0 df2.
  apply (new_rating_moves_average_towards_it keep_order keep_order_perm
           [] df2 r0 3 (mkResult (Some "SWE") (Some 2%Q))
           (mkResult (Some "SWE") (Some 1%Q)) 1%Q).
  - reflexivity.
  - in_list.
  - reflexivity.
  - reflexivity.
  - in_list.
  - reflexivity.
Defined.
